(** * Visibility-polygon light: walls, endpoints, rays and the light polygon

    A shallow embedding of [lighting.py].  Python tuples of points are
    pairs, the exceptions the code can raise are values of [exn], and the
    functions the module imports from [main] and [geometry] are the fields
    of the class [Geometry].

    Numbers.  The walls, the endpoints, the ray caster, the loop of the
    resolver and the assembler only copy and compare coordinates, and a
    finite float is a rational: there coordinates are rationals ([Qc]).
    The arithmetic of the module is in [get_intersection], [cross_product],
    [subtract] and [get_direction].  In [Light] these compute on exact
    numbers, as the functions do when called with fractions; what is proved
    of their results holds of exact numbers.  [update_light] calls
    [get_intersection] with floats, where every operation rounds: that run
    is [Binary64.get_intersection], on the primitive binary64 floats, with
    the loop of the resolver over it. *)

From Stdlib Require Import QArith Qcanon Qround Lia Lra Psatz.
From Stdlib Require Import PrimFloat SpecFloat FloatOps.
From stdpp Require Import base option list sets numbers sorting.

Open Scope Qc_scope.

#[local] Set Warnings "-clear-no-such-hyp".

(** ** Numbers and points *)

Abbreviation num := Qc.
Definition point : Type := num * num.

Definition Z2num (z : Z) : num := Qc_of_Z z.

(** [angle_a = 0.0001] in [cast_rays]. *)
Definition angle_a : num := Q2Qc (1 # 10000).

(** ** Exceptions *)

Inductive exn : Set := IndexError | KeyError | TypeError | ZeroDivisionError.

Inductive result (A : Type) : Type :=
| Ok (v : A)
| Raise (e : exn).
Arguments Ok {A} v.
Arguments Raise {A} e.

Global Instance result_ret : MRet result := fun A v => Ok v.
Global Instance result_bind : MBind result := fun A B f m =>
  match m with
  | Ok v => f v
  | Raise e => Raise e
  end.

Global Instance exn_eq_dec : EqDecision exn.
Proof. solve_decision. Defined.

(** ** Identifiers *)

(** Modelled from the spec: [new_id] lives in [main], which is not part of
    the sources; the spec describes it as a global incrementing counter per
    class.  The counter is threaded explicitly: the call returns the fresh
    id and the new counter value. *)
Definition new_id (count : nat) : nat * nat := (S count, S count).

(** ** Data model *)

Module Wall.
Record t : Type := Build { id : nat; a : point; b : point }.
(** [self.line = LineString([self.a, self.b])] *)
Definition line (w : t) : point * point := (a w, b w).
End Wall.

Module Endpoint.
Record t : Type := Build {
  id : nat;
  position : point;
  begins : option nat;
  ends : option nat
}.
Definition x (e : t) : num := fst (position e).
Definition y (e : t) : num := snd (position e).
End Endpoint.

Global Instance Wall_eq_dec : EqDecision Wall.t.
Proof. solve_decision. Defined.
Global Instance Endpoint_eq_dec : EqDecision Endpoint.t.
Proof. solve_decision. Defined.

(** A ray is a Python tuple of length 2, [(origin, target)], or of length 4,
    [(origin, target, begins, ends)]; tuples of different lengths are never
    equal. *)
Inductive ray : Type :=
| Ray2 (r1 r2 : point)
| Ray4 (r1 r2 : point) (r3 r4 : option nat).

Global Instance ray_eq_dec : EqDecision ray.
Proof. solve_decision. Defined.

(** [ray[0]], [ray[1]], and [ray[2]], [ray[3]] when [len(ray) == 4]. *)
Definition ray_0 (r : ray) : point :=
  match r with Ray2 r1 _ | Ray4 r1 _ _ _ => r1 end.
Definition ray_1 (r : ray) : point :=
  match r with Ray2 _ r2 | Ray4 _ r2 _ _ => r2 end.
Definition ray_2 (r : ray) : option nat :=
  match r with Ray2 _ _ => None | Ray4 _ _ r3 _ => r3 end.
Definition ray_3 (r : ray) : option nat :=
  match r with Ray2 _ _ => None | Ray4 _ _ _ r4 => r4 end.

Inductive Quadrant : Set := UL | UR | LL | LR.

Global Instance Quadrant_eq_dec : EqDecision Quadrant.
Proof. solve_decision. Defined.

(** An obstacle is consumed only through its [points]. *)
Record Obstacle : Type := { points : list point }.

(** ** Imported names

    [SCREEN_H], [SCREEN_W] come from [main]; the others from [geometry]
    (where [LineString] is shapely's).  None of them is in the sources, so
    they are parameters of the development.  A [LineString] of two points
    is the pair of its ends. *)
Class Geometry : Type := {
  SCREEN_H : num;
  SCREEN_W : num;
  distance_2d : point -> point -> num;
  calculate_angle : point -> point -> num;
  move_along_vector : point -> num -> num -> point;
  quadrant : point -> point -> Quadrant;
  crosses : point * point -> point * point -> bool;
  centroid : point * point -> point
}.

(** ** Python list sort with a key

    [list.sort(key=...)] is stable and leaves the keys in ascending order;
    this insertion sort is the stable sort on totally ordered keys. *)
Section sort.
Context {A : Type} (key : A -> num).

Fixpoint insert_by (x : A) (l : list A) : list A :=
  match l with
  | [] => [x]
  | y :: l' =>
      if decide (key y < key x) then y :: insert_by x l' else x :: y :: l'
  end.

Fixpoint sort_by (l : list A) : list A :=
  match l with
  | [] => []
  | x :: l' => insert_by x (sort_by l')
  end.
End sort.

(** [max(a, b)] of Python: the first argument unless the second is larger.
    Python's [a > b] is written [b < a] throughout. *)
Definition py_max (a b : num) : num := if decide (a < b) then b else a.

(** [min(a, b)] of Python: the first argument unless the second is smaller. *)
Definition py_min (a b : num) : num := if decide (b < a) then b else a.

Module Light.

(** The fields of a [Light] the computation reads or writes.  The class
    counters [Wall.count] and [Endpoint.count] are arguments of the
    functions that draw ids from them. *)
Record t : Type := Build {
  x : num;
  y : num;
  h : num;
  power : num;
  obstacles : list Obstacle;
  endpoints : list Endpoint.t;
  walls : list Wall.t;
  rays : list ray;
  light_polygon : list point
}.

(** *** [find_walls] *)

(** [for i in range(count): wall = [points[i], points[i + 1]]] *)
Fixpoint consecutive (pts : list point) : list (point * point) :=
  match pts with
  | p :: (q :: _) as tl => (p, q) :: consecutive tl
  | _ => []
  end.

(** The edges of one obstacle; [points[-1]] raises [IndexError] on an
    empty list. *)
Definition obstacle_walls (o : Obstacle) : result (list (point * point)) :=
  match last (points o), head (points o) with
  | Some l, Some f => Ok (consecutive (points o) ++ [(l, f)])
  | _, _ => Raise IndexError
  end.

Fixpoint obstacles_walls (os : list Obstacle) : result (list (point * point)) :=
  match os with
  | [] => Ok []
  | o :: os' =>
      ws ← obstacle_walls o;
      rest ← obstacles_walls os';
      mret (ws ++ rest)
  end.

(** [list([Wall(w[0], w[1]) for w in walls])], ids from [new_id(Wall)]. *)
Fixpoint make_walls (count : nat) (segs : list (point * point)) : list Wall.t :=
  match segs with
  | [] => []
  | (a, b) :: segs' =>
      let '(i, count') := new_id count in
      Wall.Build i a b :: make_walls count' segs'
  end.

(** *** [find_endpoints] *)

(** First loop: one [Endpoint] per ending not yet in [visited]. *)
Fixpoint collect_endpoints (count : nat) (visited : list point)
    (endings : list point) : list Endpoint.t :=
  match endings with
  | [] => []
  | ending :: rest =>
      if decide (ending ∈ visited) then collect_endpoints count visited rest
      else
        let '(i, count') := new_id count in
        Endpoint.Build i ending None None
          :: collect_endpoints count' (visited ++ [ending]) rest
  end.

(** [for wall in walls: for ending in (wall.a, wall.b)] visits these. *)
Definition endings (walls : list Wall.t) : list point :=
  w ← walls; [Wall.a w; Wall.b w].

(** Body of the second loop for one wall and one endpoint. *)
Definition mark (wall : Wall.t) (e : Endpoint.t) : Endpoint.t :=
  if decide (Endpoint.position e = Wall.a wall) then
    Endpoint.Build (Endpoint.id e) (Endpoint.position e)
      (Some (Wall.id wall)) (Endpoint.ends e)
  else if decide (Endpoint.position e = Wall.b wall) then
    Endpoint.Build (Endpoint.id e) (Endpoint.position e)
      (Endpoint.begins e) (Some (Wall.id wall))
  else e.

Definition mark_all (walls : list Wall.t) (eps : list Endpoint.t)
    : list Endpoint.t :=
  fold_left (fun eps wall => mark wall <$> eps) walls eps.

Definition find_endpoints (count : nat) (walls : list Wall.t)
    : list Endpoint.t :=
  mark_all walls (collect_endpoints count [] (endings walls)).

Section with_geometry.
Context `{G : Geometry}.

Definition north_border : point * point := ((SCREEN_H, 0), (SCREEN_H, SCREEN_W)).
Definition east_border : point * point := ((SCREEN_H, SCREEN_W), (0, SCREEN_W)).
Definition south_border : point * point := ((0, SCREEN_W), (0, 0)).
Definition west_border : point * point := ((0, 0), (SCREEN_H, 0)).

Definition borders : list (point * point) :=
  [north_border; east_border; south_border; west_border].

(** [find_walls] returns the new values of [self.walls] and
    [self.endpoints].  [self.walls] is a dict keyed by the wall ids, in
    insertion order; the ids are pairwise distinct, so it is kept as the
    list of its values and looked up by id. *)
Definition find_walls (wall_count endpoint_count : nat)
    (obstacles : list Obstacle) : result (list Wall.t * list Endpoint.t) :=
  edges ← obstacles_walls obstacles;
  let walls := make_walls wall_count (borders ++ edges) in
  mret (walls, find_endpoints endpoint_count walls).

(** [Light.__init__], as far as the computation is concerned. *)
Definition init (wall_count endpoint_count : nat) (x y h : num)
    (obstacles : list Obstacle) (power : num) : result t :=
  '(walls, endpoints) ← find_walls wall_count endpoint_count obstacles;
  mret (Build x y h power obstacles endpoints walls [] []).

(** *** [cast_rays] *)

(** [walls[key]]: [KeyError] when the key is [None] or not in the dict. *)
Definition lookup_wall (walls : list Wall.t) (key : option nat)
    : result Wall.t :=
  match key with
  | None => Raise KeyError
  | Some k =>
      match list_find (fun w => Wall.id w = k) walls with
      | Some (_, w) => Ok w
      | None => Raise KeyError
      end
  end.

(** [edge is None or edge == begins or
     distance_2d(position, origin) < edge_distance]; comparing a number
    with [None] raises [TypeError]. *)
Definition not_blocked (origin position : point) (begins : option nat)
    (edge : option nat) (edge_distance : option num) : result bool :=
  match edge with
  | None => Ok true
  | Some e =>
      if decide (Some e = begins) then Ok true
      else match edge_distance with
           | None => Raise TypeError
           | Some d => Ok (bool_decide (distance_2d position origin < d))
           end
  end.

(** The quadrant dispatch choosing [offset_ray_a] and [offset_ray_b]. *)
Definition offset_rays (q : Quadrant) (origin end_a end_b : point)
    (next_edge_end this_edge_begin angle : num)
    : option (point * point) * option (point * point) :=
  match q with
  | UL =>
      let offset_ray_b :=
        if decide (angle < next_edge_end) then Some (origin, end_a) else None in
      let offset_ray_b :=
        if decide (this_edge_begin < angle) then Some (origin, end_b)
        else offset_ray_b in
      (None, offset_ray_b)
  | UR | LL =>
      (if decide (angle < next_edge_end) then Some (origin, end_a) else None,
       if decide (this_edge_begin < angle) then Some (origin, end_b) else None)
  | LR =>
      (if decide (angle < this_edge_begin) then Some (origin, end_a) else None,
       if decide (next_edge_end < angle) then Some (origin, end_b) else None)
  end.

(** [offset_ray + (begins, ends)] appended when the offset ray is set. *)
Definition append_offset (rays : list ray) (o : option (point * point))
    (begins ends : option nat) : list ray :=
  match o with
  | Some (r1, r2) => rays ++ [Ray4 r1 r2 begins ends]
  | None => rays
  end.

(** [(origin, (0.0, 0.0), None, None)] *)
Definition workaround_ray (origin : point) : ray :=
  Ray4 origin (0, 0) None None.

(** The state of the loop of [cast_rays]. *)
Definition cast_state : Type := list ray * option nat * option num.

(** One iteration of [for endpoint in endpoints]. *)
Definition cast_step (walls : list Wall.t) (origin : point) (max_range : num)
    (st : cast_state) (endpoint : Endpoint.t) : result cast_state :=
  let '(rays, edge, edge_distance) := st in
  let begins := Endpoint.begins endpoint in
  let ends := Endpoint.ends endpoint in
  if decide (max_range < distance_2d origin (Endpoint.position endpoint))
  then Ok st
  else
    let position := Endpoint.position endpoint in
    let angle := calculate_angle origin position in
    let ray := Ray4 origin position begins ends in
    go ← not_blocked origin position begins edge edge_distance;
    if go : bool then
      let first_distance := distance_2d position origin in
      w ← lookup_wall walls ends;
      let second_vertex := Wall.a w in
      let '(edge, edge_distance) :=
        if decide (angle < calculate_angle origin second_vertex) then
          let second_distance := distance_2d second_vertex origin in
          (ends, Some (py_max first_distance second_distance))
        else (None, edge_distance) in
      let rays := rays ++ [ray] in
      let end_a := move_along_vector origin max_range (- angle + angle_a) in
      let end_b := move_along_vector origin max_range (- angle - angle_a) in
      wb ← lookup_wall walls begins;
      let next_edge_end := calculate_angle origin (Wall.b wb) in
      we ← lookup_wall walls ends;
      let this_edge_begin := calculate_angle origin (Wall.a we) in
      let '(offset_ray_a, offset_ray_b) :=
        offset_rays (quadrant position origin) origin end_a end_b
          next_edge_end this_edge_begin angle in
      let rays := append_offset rays offset_ray_a begins ends in
      let rays := append_offset rays offset_ray_b begins ends in
      let rays :=
        if decide (Ray2 origin (0, 0) ∈ rays) then rays
        else rays ++ [workaround_ray origin] in
      mret (rays, edge, edge_distance)
    else Ok st.

Fixpoint cast_loop (walls : list Wall.t) (origin : point) (max_range : num)
    (st : cast_state) (endpoints : list Endpoint.t) : result cast_state :=
  match endpoints with
  | [] => Ok st
  | endpoint :: rest =>
      st' ← cast_step walls origin max_range st endpoint;
      cast_loop walls origin max_range st' rest
  end.

Definition cast_rays (walls : list Wall.t) (endpoints : list Endpoint.t)
    (origin : point) (max_range : num) : result (list ray) :=
  st ← cast_loop walls origin max_range ([], None, None) endpoints;
  mret (st.1.1).

(** *** The intersection helpers *)

Definition cross_product (p1 p2 : point) : num :=
  p1.1 * p2.2 - p2.1 * p1.2.

Definition subtract (p1 p2 : point) : point :=
  (p1.1 - p2.1, p1.2 - p2.2).

Definition get_direction (p1 p2 p3 : point) : num :=
  cross_product (subtract p3 p1) (subtract p2 p1).

(** [on_segment]: [p] is inside the bounding box of [p1] and [p2]. *)
Definition on_segment (p1 p2 p : point) : bool :=
  bool_decide (py_min p1.1 p2.1 ≤ p.1 ∧ p.1 ≤ py_max p1.1 p2.1) &&
  bool_decide (py_min p1.2 p2.2 ≤ p.2 ∧ p.2 ≤ py_max p1.2 p2.2).

(** [intersect]: a proper crossing, or an end of one segment lying on the
    other. *)
Definition intersect (p1 p2 p3 p4 : point) : bool :=
  let d1 := get_direction p3 p4 p1 in
  let d2 := get_direction p3 p4 p2 in
  let d3 := get_direction p1 p2 p3 in
  let d4 := get_direction p1 p2 p4 in
  if bool_decide (((0 < d1 ∧ d2 < 0) ∨ (d1 < 0 ∧ 0 < d2)) ∧
                  ((0 < d3 ∧ d4 < 0) ∨ (d3 < 0 ∧ 0 < d4)))
  then true
  else if bool_decide (d1 = 0) && on_segment p3 p4 p1 then true
  else if bool_decide (d2 = 0) && on_segment p3 p4 p2 then true
  else if bool_decide (d3 = 0) && on_segment p1 p2 p3 then true
  else if bool_decide (d4 = 0) && on_segment p1 p2 p4 then true
  else false.

(** The divisor of [get_intersection], [x_1 * x_3 - x_5 * x_4]. *)
Definition denominator (p1 p2 p3 p4 : point) : num :=
  let x_1 := p4.2 - p3.2 in
  let x_3 := p2.1 - p1.1 in
  let x_4 := p2.2 - p1.2 in
  let x_5 := p4.1 - p3.1 in
  x_1 * x_3 - x_5 * x_4.

(** [get_intersection] on exact numbers; the division raises
    [ZeroDivisionError] on a zero divisor.  On floats it is
    [Binary64.get_intersection]. *)
Definition get_intersection (p1 p2 p3 p4 : point) : result point :=
  let x_0 := p1.2 - p3.2 in
  let x_1 := p4.2 - p3.2 in
  let x_2 := p1.1 - p3.1 in
  let x_3 := p2.1 - p1.1 in
  let x_4 := p2.2 - p1.2 in
  let x_5 := p4.1 - p3.1 in
  if decide (x_1 * x_3 - x_5 * x_4 = 0) then Raise ZeroDivisionError
  else
    let s := (x_5 * x_0 - x_1 * x_2) / (x_1 * x_3 - x_5 * x_4) in
    Ok (p1.1 + s * x_3, p1.2 + s * x_4).

(** *** [update_light] *)

(** [wall.id not in (r3, r4) and line.crosses(wall.line)] *)
Definition collides (r : ray) (wall : Wall.t) : Prop :=
  (Some (Wall.id wall) ≠ ray_2 r ∧ Some (Wall.id wall) ≠ ray_3 r) ∧
  crosses (ray_0 r, ray_1 r) (Wall.line wall) = true.

Global Instance collides_dec r wall : Decision (collides r wall).
Proof. unfold collides. apply _. Defined.

(** The inner loop [for wall in walls: ... break]: the coordinates of
    the first colliding wall, if any. *)
Definition colliding_wall (walls : list Wall.t) (r : ray)
    : option (point * point) :=
  match list_find (collides r) walls with
  | Some (_, wall) => Some (Wall.line wall)
  | None => None
  end.

(** [for ray in rays:] where the body appends to [rays]: the iteration
    goes by position and reaches the appended rays too.  [i] is the
    position of the next ray; the fuel bounds the number of iterations. *)
Fixpoint resolve_loop (fuel : nat) (walls : list Wall.t) (origin : point)
    (rays : list ray) (i : nat) (colliding_rays : list ray)
    : option (result (list ray * list ray)) :=
  match fuel with
  | O => None
  | S fuel' =>
      match rays !! i with
      | None => Some (Ok (rays, colliding_rays))
      | Some r =>
          match colliding_wall walls r with
          | None => resolve_loop fuel' walls origin rays (S i) colliding_rays
          | Some (w1, w2) =>
              match get_intersection (ray_0 r) (ray_1 r) w1 w2 with
              | Raise e => Some (Raise e)
              | Ok i_ =>
                  let new_ray := Ray2 origin i_ in
                  resolve_loop fuel' walls origin (rays ++ [new_ray]) (S i)
                    (colliding_rays ++ [r])
              end
          end
      end
  end.


(** [walls.sort(key=lambda w: distance_2d((w.centroid.x, w.centroid.y),
    origin))] *)
Definition sort_walls (origin : point) (walls : list Wall.t) : list Wall.t :=
  sort_by (fun w => distance_2d (centroid (Wall.line w)) origin) walls.

(** Lines 254 to 256: the final ray list and the polygon. *)
Definition assemble (origin : point) (rays colliding_rays : list ray)
    : list ray * list point :=
  let rays_ := filter (fun r => r ∉ colliding_rays) rays in
  let rays_ := sort_by (fun r => calculate_angle origin (ray_1 r)) rays_ in
  (rays_, ray_1 <$> rays_).

(** The resolver and the assembler on a ray list and the walls sorted
    by [sort_walls]. *)
Definition resolve (fuel : nat) (walls : list Wall.t) (origin : point)
    (rays : list ray) : option (result (list ray * list point)) :=
  match resolve_loop fuel (sort_walls origin walls) origin rays 0 [] with
  | None => None
  | Some (Raise e) => Some (Raise e)
  | Some (Ok (rays', colliding_rays)) =>
      Some (Ok (assemble origin rays' colliding_rays))
  end.

Definition update_light (fuel : nat) (L : t) : option (result t) :=
  let walls := walls L in
  let origin := (x L, y L) in
  let endpoints :=
    sort_by (fun e_ => calculate_angle origin (Endpoint.position e_))
      (endpoints L) in
  match cast_rays walls endpoints origin (power L) with
  | Raise e => Some (Raise e)
  | Ok rays =>
      match resolve fuel walls origin rays with
      | None => None
      | Some (Raise e) => Some (Raise e)
      | Some (Ok (rays_, polygon)) =>
          Some (Ok (Build (x L) (y L) (h L) (power L) (obstacles L)
                      endpoints walls rays_ polygon))
      end
  end.

Definition update := update_light.

End with_geometry.

(** Modelled from the spec: [LineString.crosses] is not in the sources;
    the spec describes it as a strict crossing, not mere touching.  Two
    segments cross when each has the ends of the other strictly on
    opposite sides, the first alternative of [Light.intersect]. *)
Definition segments_cross (r w : point * point) : bool :=
  let '(p1, p2) := r in
  let '(p3, p4) := w in
  let d1 := get_direction p3 p4 p1 in
  let d2 := get_direction p3 p4 p2 in
  let d3 := get_direction p1 p2 p3 in
  let d4 := get_direction p1 p2 p4 in
  bool_decide (((0 < d1 ∧ d2 < 0) ∨ (d1 < 0 ∧ 0 < d2)) ∧
               ((0 < d3 ∧ d4 < 0) ∨ (d3 < 0 ∧ 0 < d4))).

(** The assumption under which the resolver is studied with exact
    numbers: what [crosses] accepts is a strict crossing. *)
Definition crosses_strictly (G : Geometry) : Prop :=
  ∀ r w, crosses r w = true → segments_cross r w = true.

End Light.

(** ** An exact instance of the imported names

    Rational stand-ins for the functions of [geometry], used to run the
    pipeline on sample rooms: the Euclidean distance (exact when it is
    rational, rounded down through the integer square roots otherwise), an
    angle in degrees that grows with the polar angle and agrees with it at
    the multiples of 45, the point reached from a start along a direction,
    the quadrant of a point around another, the strict crossing test and
    the midpoint of a segment. *)
Module Exact.

Definition sqrt (q : num) : num :=
  Q2Qc (Z.sqrt (Qnum q) # Pos.sqrt (Qden q)).

Definition distance_2d (p q : point) : num :=
  sqrt ((q.1 - p.1) * (q.1 - p.1) + (q.2 - p.2) * (q.2 - p.2)).

Definition calculate_angle (start end_ : point) : num :=
  let dx := end_.1 - start.1 in
  let dy := end_.2 - start.2 in
  if decide (dx = 0 ∧ dy = 0) then 0
  else if decide (0 ≤ dy) then
    if decide (0 ≤ dx) then Z2num 90 * (dy / (dx + dy))
    else Z2num 90 + Z2num 90 * (- dx / (- dx + dy))
  else
    if decide (dx < 0) then Z2num 180 + Z2num 90 * (- dy / (- dx - dy))
    else Z2num 270 + Z2num 90 * (dx / (dx - dy)).

(** The angle reduced to [0, 360). *)
Definition normalize (angle : num) : num :=
  angle - Z2num 360 * Z2num (Qfloor (angle / Z2num 360)).

Definition direction (angle : num) : point :=
  let t := normalize angle / Z2num 90 in
  if decide (t < 1) then (1 - t, t)
  else if decide (t < 2) then (1 - t, 2 - t)
  else if decide (t < Z2num 3) then (t - Z2num 3, 2 - t)
  else (t - Z2num 3, t - Z2num 4).

Definition move_along_vector (start : point) (velocity angle : num) : point :=
  let d := direction angle in
  (start.1 + velocity * d.1, start.2 + velocity * d.2).

Definition quadrant (position origin : point) : Quadrant :=
  if decide (position.1 < origin.1) then
    if decide (origin.2 < position.2) then UL else LL
  else
    if decide (origin.2 < position.2) then UR else LR.

Definition centroid (l : point * point) : point :=
  ((l.1.1 + l.2.1) / 2, (l.1.2 + l.2.2) / 2).

(** The instance for a screen of the given extents. *)
Definition geometry (screen_h screen_w : Z) : Geometry :=
  Build_Geometry (Z2num screen_h) (Z2num screen_w) distance_2d
    calculate_angle move_along_vector quadrant Light.segments_cross centroid.

(** Points with integer coordinates. *)
Definition pt (px py : Z) : point := (Z2num px, Z2num py).

End Exact.

(** ** The resolver on Python floats

    Python's [float] is IEEE 754 binary64 and every operation of
    [get_intersection] rounds to nearest; the primitive floats are the same
    numbers with the same operations.  [update_light] always calls it with
    floats: the wall coordinates come back from [wall.line.coords], and an
    integer coordinate of a ray below 2^53 converts to the float of the same
    value when it meets one. *)
Module Binary64.

Definition point : Type := float * float.

Inductive ray : Type :=
| Ray2 (r1 r2 : point)
| Ray4 (r1 r2 : point) (r3 r4 : option nat).

Definition ray_0 (r : ray) : point :=
  match r with Ray2 r1 _ | Ray4 r1 _ _ _ => r1 end.
Definition ray_1 (r : ray) : point :=
  match r with Ray2 _ r2 | Ray4 _ r2 _ _ => r2 end.
Definition ray_2 (r : ray) : option nat :=
  match r with Ray2 _ _ => None | Ray4 _ _ r3 _ => r3 end.
Definition ray_3 (r : ray) : option nat :=
  match r with Ray2 _ _ => None | Ray4 _ _ _ r4 => r4 end.

Record wall : Type := Wall { id : nat; a : point; b : point }.

(** The divisor of [get_intersection], [x_1 * x_3 - x_5 * x_4]. *)
Definition divisor (p1 p2 p3 p4 : point) : float :=
  let x_1 := (p4.2 - p3.2)%float in
  let x_3 := (p2.1 - p1.1)%float in
  let x_4 := (p2.2 - p1.2)%float in
  let x_5 := (p4.1 - p3.1)%float in
  (x_1 * x_3 - x_5 * x_4)%float.

(** [get_intersection]; a float division raises [ZeroDivisionError] when
    the divisor compares equal to zero, of either sign. *)
Definition get_intersection (p1 p2 p3 p4 : point) : result point :=
  let x_0 := (p1.2 - p3.2)%float in
  let x_1 := (p4.2 - p3.2)%float in
  let x_2 := (p1.1 - p3.1)%float in
  let x_3 := (p2.1 - p1.1)%float in
  let x_4 := (p2.2 - p1.2)%float in
  let x_5 := (p4.1 - p3.1)%float in
  if PrimFloat.eqb (x_1 * x_3 - x_5 * x_4)%float 0%float
  then Raise ZeroDivisionError
  else
    let s := ((x_5 * x_0 - x_1 * x_2) / (x_1 * x_3 - x_5 * x_4))%float in
    Ok ((p1.1 + s * x_3)%float, (p1.2 + s * x_4)%float).

(** The rational a finite float stands for. *)
Definition exact (x : float) : num :=
  match Prim2SF x with
  | S754_finite s m e =>
      let v := Q2Qc (inject_Z (Z.pos m) * Qpower 2 e) in
      if s then - v else v
  | _ => 0
  end.

Definition exact_point (p : point) : num * num := (exact p.1, exact p.2).

(** Modelled from the spec: [LineString.crosses] is not in the sources;
    the spec describes it as a strict crossing, not mere touching.  It is
    decided on the exact values of the coordinates. *)
Definition strict_crossing (r w : point * point) : bool :=
  Light.segments_cross (exact_point r.1, exact_point r.2)
    (exact_point w.1, exact_point w.2).

Section resolver.
Variable crosses : point * point → point * point → bool.

(** [wall.id not in (r3, r4) and line.crosses(wall.line)] *)
Definition collides (r : ray) (w : wall) : bool :=
  bool_decide (Some (id w) ≠ ray_2 r ∧ Some (id w) ≠ ray_3 r) &&
  crosses (ray_0 r, ray_1 r) (a w, b w).

(** [for wall in walls: ... break] *)
Definition colliding_wall (walls : list wall) (r : ray)
    : option (point * point) :=
  match List.find (collides r) walls with
  | Some w => Some (a w, b w)
  | None => None
  end.

(** [for ray in rays:] over the list the body appends to, as
    [Light.resolve_loop]. *)
Fixpoint resolve_loop (fuel : nat) (walls : list wall) (origin : point)
    (rays : list ray) (i : nat) (colliding_rays : list ray)
    : option (result (list ray * list ray)) :=
  match fuel with
  | O => None
  | S fuel' =>
      match rays !! i with
      | None => Some (Ok (rays, colliding_rays))
      | Some r =>
          match colliding_wall walls r with
          | None => resolve_loop fuel' walls origin rays (S i) colliding_rays
          | Some (w1, w2) =>
              match get_intersection (ray_0 r) (ray_1 r) w1 w2 with
              | Raise e => Some (Raise e)
              | Ok i_ =>
                  let new_ray := Ray2 origin i_ in
                  resolve_loop fuel' walls origin (rays ++ [new_ray]) (S i)
                    (colliding_rays ++ [r])
              end
          end
      end
  end.
End resolver.

(** A ray from (0, 0) to (3, 0) and a wall from (2, -1) to (1, 5): they
    cross at (11/6, 0). *)
Definition ray_to_3 : ray := Ray4 (0, 0)%float (3, 0)%float None None.
Definition steep_wall : wall := Wall 1 (2, -1)%float (1, 5)%float.

(** Two nearly parallel segments that cross. *)
Definition long_diagonal : ray :=
  Ray4 (0, 0)%float (268435451, 268435452)%float None None.
Definition near_diagonal : wall :=
  Wall 1 (-1, -1)%float (268435453, 268435454)%float.

End Binary64.

(** ** Definitions used in the statements *)

(** The edges of a closed polygon in the words of the spec: every point
    paired with its successor, the last point with the first. *)
Definition polygon_edges (pts : list point) : list (point * point) :=
  zip pts (drop 1 pts ++ take 1 pts).

(** The order of two elements by their sort keys. *)
Definition key_le {A : Type} (key : A → num) (a b : A) : Prop :=
  key a ≤ key b.

(** The rays one endpoint contributes: its primary ray, the accepted
    offset rays, and the ray toward (0, 0). *)
Definition ray_block `{G : Geometry} (origin : point) (max_range : num)
    (e : Endpoint.t) (block : list ray) : Prop :=
  let angle := calculate_angle origin (Endpoint.position e) in
  ∃ offsets,
    block = Ray4 origin (Endpoint.position e) (Endpoint.begins e) (Endpoint.ends e)
              :: offsets ++ [Light.workaround_ray origin] ∧
    (length offsets ≤ 2)%nat ∧
    Forall (λ r, ∃ a, a ∈ [- angle + angle_a; - angle - angle_a] ∧
                      r = Ray4 origin (move_along_vector origin max_range a)
                            (Endpoint.begins e) (Endpoint.ends e)) offsets.

(** The rays [cast_rays] builds are all 4-tuples. *)
Definition is_ray4 (r : ray) : Prop :=
  match r with Ray4 _ _ _ _ => True | Ray2 _ _ => False end.

(** A wall id that is a key of the wall dict. *)
Definition has_key (walls : list Wall.t) (key : option nat) : Prop :=
  ∃ w, w ∈ walls ∧ key = Some (Wall.id w).

(** The 4-tuple an accepted offset ray becomes. *)
Definition offset_list (o : option (point * point)) (begins ends : option nat)
    : list ray :=
  match o with
  | Some (r1, r2) => [Ray4 r1 r2 begins ends]
  | None => []
  end.

(** The tracked edge always comes with its distance. *)
Definition edge_tracked (st : Light.cast_state) : Prop :=
  is_Some st.1.2 → is_Some st.2.

(** An obstacle outline with two different points. *)
Definition two_distinct_points (o : Obstacle) : Prop :=
  ∃ p q, p ∈ points o ∧ q ∈ points o ∧ p ≠ q.

(** The walls a ray crosses, whatever their ids. *)
Definition crossed (walls : list Wall.t) (r : ray) : list Wall.t :=
  filter (λ w, Light.segments_cross (ray_0 r, ray_1 r) (Wall.line w) = true)
    walls.

(** A bound on the rounds a ray and its replacements can still take. *)
Definition rounds (walls : list Wall.t) (origin : point) (r : ray) : nat :=
  if decide (ray_0 r = origin) then S (length (crossed walls r))
  else S (S (length walls)).

(** The four corners of the bounding area. *)
Definition corners `{G : Geometry} : list point :=
  [(SCREEN_H, 0); (SCREEN_H, SCREEN_W); (0, SCREEN_W); (0, 0)].

(** The endpoints as [update_light] hands them to [cast_rays]. *)
Definition sorted_endpoints `{G : Geometry} (L : Light.t) : list Endpoint.t :=
  sort_by (λ e_, calculate_angle (Light.x L, Light.y L) (Endpoint.position e_))
    (Light.endpoints L).

(** A point on a segment: on its line and inside its bounding box. *)
Definition lies_on (p1 p2 q : point) : Prop :=
  Light.get_direction p1 p2 q = 0 ∧ Light.on_segment p1 p2 q = true.

(** An endpoint [cast_rays] skips for being farther than [max_range]. *)
Definition out_of_range `{G : Geometry} (origin : point) (max_range : num)
    (e : Endpoint.t) : Prop :=
  max_range < distance_2d origin (Endpoint.position e).

Global Instance out_of_range_dec `{G : Geometry} origin max_range e :
  Decision (out_of_range origin max_range e).
Proof. unfold out_of_range. apply _. Defined.

(** The second loop of [find_endpoints] seen from one endpoint. *)
Definition marks (walls : list Wall.t) (e : Endpoint.t) : Endpoint.t :=
  fold_left (λ e wall, Light.mark wall e) walls e.

(** The walls that set [begins], and those that set [ends], of an endpoint
    at a position. *)
Definition begun_at (p : point) (walls : list Wall.t) : list Wall.t :=
  filter (λ w, Wall.a w = p) walls.
Definition ended_at (p : point) (walls : list Wall.t) : list Wall.t :=
  filter (λ w, Wall.b w = p ∧ Wall.a w ≠ p) walls.




(** ** Decidable equality on results and lights *)

Global Instance result_eq_dec `{EqDecision A} : EqDecision (result A).
Proof. solve_decision. Defined.
Global Instance Obstacle_eq_dec : EqDecision Obstacle.
Proof. solve_decision. Defined.
Global Instance Light_eq_dec : EqDecision Light.t.
Proof. solve_decision. Defined.

(** ** Sample scenes *)
Module Sample.
Import Exact.

(** A screen of 60 by 80 with the light in its middle. *)
Definition G : Geometry := geometry 60 80.
Definition origin : point := pt 30 40.

Definition empty_light (power : Z) : result Light.t :=
  @Light.init G 0 0 (Z2num 30) (Z2num 40) 0 [] (Z2num power).

Definition square : Obstacle :=
  {| points := [pt 40 30; pt 50 30; pt 50 50; pt 40 50] |}.
Definition square_light : result Light.t :=
  @Light.init G 0 0 (Z2num 30) (Z2num 40) 0 [square] (Z2num 1500).

(** An obstacle of a single point next to the light. *)
Definition dot : Obstacle := {| points := [pt 31 40] |}.

(** Two walls in front of a ray from (0, 0) to (10, 0): the nearer one by
    its centroid is the farther one along the ray. *)
Definition near_centroid : Wall.t := Wall.Build 1 (pt 8 (-1)) (pt 8 1).
Definition far_centroid : Wall.t := Wall.Build 2 (pt 4 (-1)) (pt 4 30).
Definition two_walls : list Wall.t := [far_centroid; near_centroid].
Definition long_ray : ray := Ray4 (pt 0 0) (pt 10 0) None None.
Definition clipped_once : ray := Ray2 (pt 0 0) (pt 8 0).
Definition clipped_twice : ray := Ray2 (pt 0 0) (pt 4 0).

(** The light of [empty_light] and [square_light] once built. *)
Definition built (l : result Light.t) : Light.t :=
  match l with
  | Ok L => L
  | Raise _ => Light.Build 0 0 0 0 [] [] [] [] []
  end.
End Sample.

(** * Proofs *)

(** Unfold the error monad. *)
Ltac bind_simpl := cbn [mbind result_bind mret result_ret].

(** Decide a closed statement by evaluating its decision procedure. *)
Ltac by_compute := apply (bool_decide_unpack _); vm_compute; reflexivity.

(** * Wall Builder *)

Lemma length_consecutive pts :
  length (Light.consecutive pts) = pred (length pts).
Proof. induction pts as [|p [|q tl] IH]; simpl in *; auto. Qed.

Lemma consecutive_zip p tl x :
  zip (p :: tl) (tl ++ [x]) =
  Light.consecutive (p :: tl) ++ [(default p (last (p :: tl)), x)].
Proof.
  revert p. induction tl as [|q tl IH]; intros p; [done|].
  change (zip (p :: q :: tl) ((q :: tl) ++ [x]))
    with ((p, q) :: zip (q :: tl) (tl ++ [x])).
  rewrite IH.
  change (Light.consecutive (p :: q :: tl))
    with ((p, q) :: Light.consecutive (q :: tl)).
  rewrite (last_cons p). destruct (last (q :: tl)) eqn:Hl; [done|].
  rewrite last_cons in Hl. by destruct (last tl).
Qed.

Lemma obstacle_walls_nonempty o :
  points o ≠ [] →
  Light.obstacle_walls o = Ok (polygon_edges (points o)).
Proof.
  unfold Light.obstacle_walls, polygon_edges. destruct (points o) as [|p tl]; [done|].
  intros _. destruct (last (p :: tl)) as [l|] eqn:Hl.
  - change (drop 1 (p :: tl) ++ take 1 (p :: tl)) with (tl ++ [p]).
    by rewrite consecutive_zip, Hl.
  - by rewrite last_cons in Hl; destruct (last tl).
Qed.

Lemma obstacle_walls_empty o :
  points o = [] → Light.obstacle_walls o = Raise IndexError.
Proof. unfold Light.obstacle_walls. by intros ->. Qed.

Lemma length_polygon_edges pts : length (polygon_edges pts) = length pts.
Proof.
  unfold polygon_edges. rewrite length_zip_with, length_app, length_drop, length_take.
  destruct pts as [|p pts]; [done|]. cbn [length]. lia.
Qed.

Lemma obstacles_walls_nonempty os :
  Forall (λ o, points o ≠ []) os →
  Light.obstacles_walls os = Ok (o ← os; polygon_edges (points o)).
Proof.
  induction 1 as [|o os Ho _ IH]; [done|].
  simpl. rewrite obstacle_walls_nonempty, IH by done. done.
Qed.

Lemma obstacles_walls_empty os :
  Exists (λ o, points o = []) os →
  Light.obstacles_walls os = Raise IndexError.
Proof.
  induction os as [|o os IH]; intros Hex; [by apply Exists_nil in Hex|].
  simpl. destruct (decide (points o = [])) as [He|Hne].
  - by rewrite obstacle_walls_empty.
  - rewrite obstacle_walls_nonempty by done. simpl.
    apply Exists_cons in Hex as [?|Hex]; [done|]. by rewrite IH.
Qed.

Lemma length_bind_polygon_edges os :
  length (o ← os; polygon_edges (points o)) =
  sum_list_with (λ o, length (points o)) os.
Proof.
  induction os as [|o os IH]; [done|].
  rewrite bind_cons, length_app, length_polygon_edges, IH. done.
Qed.

Lemma make_walls_line count segs :
  Wall.line <$> Light.make_walls count segs = segs.
Proof.
  revert count. induction segs as [|[a b] segs IH]; intros count; [done|].
  simpl. by rewrite IH.
Qed.

Lemma make_walls_id count segs :
  Wall.id <$> Light.make_walls count segs = seq (S count) (length segs).
Proof.
  revert count. induction segs as [|[a b] segs IH]; intros count; [done|].
  simpl. by rewrite IH.
Qed.

Lemma length_make_walls count segs :
  length (Light.make_walls count segs) = length segs.
Proof. by rewrite <-(length_fmap Wall.id), make_walls_id, length_seq. Qed.

(** C6.  When every obstacle has at least 2 points, [find_walls] builds
    4 walls for the borders plus one wall per obstacle point: the walls are,
    in order, the four borders and then every edge of every closed obstacle
    outline, with pairwise distinct ids and nothing merged or dropped. *)
Theorem find_walls_count `{G : Geometry} (wall_count endpoint_count : nat)
    (obstacles : list Obstacle) :
  Forall (λ o, 2 ≤ length (points o))%nat obstacles →
  ∃ walls endpoints,
    Light.find_walls wall_count endpoint_count obstacles = Ok (walls, endpoints) ∧
    length walls = (4 + sum_list_with (λ o, length (points o)) obstacles)%nat ∧
    NoDup (Wall.id <$> walls) ∧
    Wall.line <$> walls =
      Light.borders ++ (o ← obstacles; polygon_edges (points o)).
Proof.
  intros Hobs.
  assert (Forall (λ o, points o ≠ []) obstacles) as Hne.
  { eapply Forall_impl; [exact Hobs|]. intros o Ho Hnil. simpl in Ho.
    rewrite Hnil in Ho. simpl in Ho. lia. }
  unfold Light.find_walls. rewrite obstacles_walls_nonempty by done.
  eexists _, _. split; [reflexivity|]. split_and!.
  - rewrite length_make_walls, length_app, length_bind_polygon_edges. done.
  - rewrite make_walls_id. apply NoDup_seq.
  - apply make_walls_line.
Qed.

(** C8, as amended.  [find_walls] makes no check of its own on the
    obstacles: an obstacle without points makes it raise [IndexError] when
    it reads the last point, and when no obstacle is empty it succeeds, an
    obstacle of exactly one point [p] giving a wall from [p] to [p]. *)
Theorem find_walls_degenerate_obstacle `{G : Geometry}
    (wall_count endpoint_count : nat) (obstacles : list Obstacle) :
  (Exists (λ o, points o = []) obstacles →
   Light.find_walls wall_count endpoint_count obstacles = Raise IndexError) ∧
  (Forall (λ o, points o ≠ []) obstacles →
   ∃ walls endpoints,
     Light.find_walls wall_count endpoint_count obstacles = Ok (walls, endpoints) ∧
     ∀ o p, o ∈ obstacles → points o = [p] →
       ∃ w, w ∈ walls ∧ Wall.a w = p ∧ Wall.b w = p).
Proof.
  split.
  - intros Hex. unfold Light.find_walls. by rewrite obstacles_walls_empty.
  - intros Hne. unfold Light.find_walls. rewrite obstacles_walls_nonempty by done.
    eexists _, _. split; [reflexivity|]. intros o p Ho Hp.
    assert ((p, p) ∈ Wall.line <$>
              Light.make_walls wall_count
                (Light.borders ++ (o ← obstacles; polygon_edges (points o))))
      as Hin.
    { rewrite make_walls_line. apply elem_of_app. right.
      apply list_elem_of_bind. exists o. split; [|done].
      rewrite Hp. unfold polygon_edges. simpl. set_solver. }
    apply list_elem_of_fmap in Hin as (w & Hw & Hin). exists w.
    unfold Wall.line in Hw. by simplify_eq.
Qed.

(** * Endpoint Index *)

Lemma mark_position wall e :
  Endpoint.position (Light.mark wall e) = Endpoint.position e.
Proof. unfold Light.mark. by repeat case_decide. Qed.

Lemma mark_all_position walls eps :
  Endpoint.position <$> Light.mark_all walls eps = Endpoint.position <$> eps.
Proof.
  revert eps. induction walls as [|w walls IH]; intros eps; [done|].
  simpl. rewrite IH, <-list_fmap_compose. apply list_fmap_ext.
  intros _ e _. apply mark_position.
Qed.

Lemma collect_endpoints_position count visited endings p :
  p ∈ Endpoint.position <$> Light.collect_endpoints count visited endings ↔
  p ∈ endings ∧ p ∉ visited.
Proof.
  revert count visited.
  induction endings as [|q rest IH]; intros count visited; simpl.
  - set_solver.
  - case_decide as Hq.
    + rewrite IH. set_solver.
    + rewrite fmap_cons, elem_of_cons, IH. simpl.
      destruct (decide (p = q)) as [->|]; set_solver.
Qed.

Lemma collect_endpoints_NoDup count visited endings :
  NoDup (Endpoint.position <$> Light.collect_endpoints count visited endings).
Proof.
  revert count visited.
  induction endings as [|q rest IH]; intros count visited; simpl.
  - constructor.
  - case_decide as Hq; [apply IH|].
    rewrite fmap_cons. constructor; [|apply IH].
    rewrite collect_endpoints_position. set_solver.
Qed.

Lemma collect_endpoints_length count visited endings :
  (length (Light.collect_endpoints count visited endings) ≤ length endings)%nat ∧
  (length (Light.collect_endpoints count visited endings) = length endings ↔
   NoDup endings ∧ ∀ p, p ∈ endings → p ∉ visited).
Proof.
  revert count visited.
  induction endings as [|q rest IH]; intros count visited; simpl.
  - split; [lia|]. split; [|done]. intros _. split; [constructor|set_solver].
  - case_decide as Hq.
    + destruct (IH count visited) as [Hle _]. split; [lia|].
      split; [lia|]. intros [_ Hv]. destruct (Hv q); set_solver.
    + destruct (IH (S count) (visited ++ [q])) as [Hle Heq].
      simpl. split; [lia|]. rewrite NoDup_cons. split.
      * intros Hlen. destruct Heq as [[Hnd Hv] _]; [lia|].
        split_and!; [set_solver|done|]. set_solver.
      * intros [[Hq' Hnd] Hv]. f_equal. apply Heq. split; [done|]. set_solver.
Qed.

Lemma length_endings walls : length (Light.endings walls) = (2 * length walls)%nat.
Proof.
  unfold Light.endings. induction walls as [|w walls IH]; [done|].
  rewrite bind_cons, length_app, IH. simpl. lia.
Qed.

Lemma find_endpoints_positions count walls p :
  p ∈ Endpoint.position <$> Light.find_endpoints count walls ↔
  p ∈ Light.endings walls.
Proof.
  unfold Light.find_endpoints.
  rewrite mark_all_position, collect_endpoints_position. set_solver.
Qed.

(** C7.  [find_endpoints] creates exactly one endpoint per distinct
    position among the wall ends, compared by equality of coordinates: the
    positions are duplicate-free and are those of the wall ends, there are
    at most twice as many endpoints as walls, and exactly twice as many
    when, and only when, no two wall ends coincide. *)
Theorem find_endpoints_distinct_positions (count : nat) (walls : list Wall.t) :
  let endpoints := Light.find_endpoints count walls in
  NoDup (Endpoint.position <$> endpoints) ∧
  (∀ p, p ∈ Endpoint.position <$> endpoints ↔ p ∈ Light.endings walls) ∧
  (length endpoints ≤ length walls * 2)%nat ∧
  (length endpoints = (length walls * 2)%nat ↔ NoDup (Light.endings walls)).
Proof.
  unfold Light.find_endpoints. cbv zeta.
  rewrite mark_all_position.
  rewrite <-(length_fmap Endpoint.position), mark_all_position, length_fmap.
  pose proof (collect_endpoints_length count [] (Light.endings walls)) as [Hle Heq].
  rewrite length_endings in Hle, Heq. split_and!.
  - apply collect_endpoints_NoDup.
  - intros p. rewrite collect_endpoints_position. set_solver.
  - lia.
  - rewrite <-(Nat.mul_comm 2), Heq. set_solver.
Qed.

(** * Sorting by a key *)
Section sort_facts.
Context {A : Type} (key : A → num).

Lemma insert_by_perm x l : insert_by key x l ≡ₚ x :: l.
Proof.
  induction l as [|y l IH]; simpl; [done|].
  case_decide; [|done]. rewrite IH. apply Permutation_swap.
Qed.

Lemma sort_by_perm l : sort_by key l ≡ₚ l.
Proof.
  induction l as [|x l IH]; simpl; [done|].
  by rewrite insert_by_perm, IH.
Qed.

Lemma insert_by_sorted x l :
  StronglySorted (key_le key) l → StronglySorted (key_le key) (insert_by key x l).
Proof.
  induction 1 as [|y l Hl IH Hy]; simpl.
  - repeat constructor.
  - case_decide as Hlt.
    + constructor; [done|]. rewrite insert_by_perm. constructor; [|done].
      by apply Qclt_le_weak.
    + apply Qcnot_lt_le in Hlt. constructor; [by constructor|].
      constructor; [done|]. eapply Forall_impl; [exact Hy|].
      intros z Hz. unfold key_le in *. by eapply Qcle_trans.
Qed.

Lemma sort_by_sorted l : StronglySorted (key_le key) (sort_by key l).
Proof.
  induction l as [|x l IH]; simpl; [constructor|]. by apply insert_by_sorted.
Qed.

Lemma sort_by_keys_sorted l : Sorted Qcle (key <$> sort_by key l).
Proof.
  apply StronglySorted_Sorted.
  induction (sort_by_sorted l) as [|x l' Hl IH Hx]; [constructor|].
  rewrite fmap_cons. constructor; [done|]. by apply Forall_fmap.
Qed.
End sort_facts.

(** * The sort is stable *)
Section sort_stable.
Context {A : Type} (key : A → num).

Lemma insert_by_stable k x l :
  filter (λ a, key a = k) (insert_by key x l) =
  filter (λ a, key a = k) (x :: l).
Proof.
  induction l as [|y l IH]; [done|]. cbn [insert_by].
  case_decide as Hlt; [|done].
  rewrite (filter_cons _ y), IH, !(filter_cons _ x), (filter_cons _ y).
  repeat case_decide; try done. subst k.
  exfalso. apply (Qclt_not_eq _ _ Hlt). congruence.
Qed.

Lemma sort_by_stable k l :
  filter (λ a, key a = k) (sort_by key l) = filter (λ a, key a = k) l.
Proof.
  induction l as [|x l IH]; [done|]. cbn [sort_by].
  by rewrite insert_by_stable, !filter_cons, IH.
Qed.

End sort_stable.

(** C2.  Whatever the working list and the colliding rays the resolver
    ends with, the final ray list is made of the rays of the working list
    that are not colliding, sorted by the angle of their target around the
    origin, ascending, with rays of equal angle in their former order; the
    light polygon is the list of those targets in that order, so its vertex
    angles never decrease.  That final list and that polygon are what a
    returning [update_light] stores. *)
Theorem update_light_polygon_sorted `{G : Geometry} (origin : point) :
  let angle := λ r, calculate_angle origin (ray_1 r) in
  (∀ rays col,
     let kept := filter (λ r, r ∉ col) rays in
     let rays_ := (Light.assemble origin rays col).1 in
     let polygon := (Light.assemble origin rays col).2 in
     rays_ ≡ₚ kept ∧
     Sorted (key_le angle) rays_ ∧
     (∀ k, filter (λ r, angle r = k) rays_ = filter (λ r, angle r = k) kept) ∧
     polygon = ray_1 <$> rays_ ∧
     Sorted Qcle (calculate_angle origin <$> polygon)) ∧
  (∀ fuel L L',
     (Light.x L, Light.y L) = origin →
     Light.update_light fuel L = Some (Ok L') →
     ∃ rays rays' col,
       Light.cast_rays (Light.walls L) (sorted_endpoints L) origin
         (Light.power L) = Ok rays ∧
       Light.resolve_loop fuel (Light.sort_walls origin (Light.walls L))
         origin rays 0 [] = Some (Ok (rays', col)) ∧
       Light.rays L' = (Light.assemble origin rays' col).1 ∧
       Light.light_polygon L' = (Light.assemble origin rays' col).2).
Proof.
  intros angle. split.
  - intros rays col kept rays_ polygon.
    unfold rays_, polygon, Light.assemble. cbn [fst snd]. fold kept angle.
    split_and!.
    + apply sort_by_perm.
    + apply StronglySorted_Sorted, sort_by_sorted.
    + intros k. apply (sort_by_stable angle).
    + done.
    + rewrite <-list_fmap_compose. apply (sort_by_keys_sorted angle).
  - intros fuel L L' <- Hup.
    unfold Light.update_light, Light.resolve in Hup. fold (sorted_endpoints L) in Hup.
    destruct (Light.cast_rays _ _ _ _) as [rays|]; [|done].
    destruct (Light.resolve_loop _ _ _ _ _ _) as [[[rays' col]|]|] eqn:Hrun;
      [|done..].
    destruct (Light.assemble _ _ _) as [rays_ polygon] eqn:Ha.
    injection Hup as <-. exists rays, rays', col.
    cbn [Light.rays Light.light_polygon]. by rewrite Ha.
Qed.

(** * Intersection Resolver *)
Section resolver_facts.
Context `{G : Geometry}.

Lemma colliding_wall_Some walls r l :
  Light.colliding_wall walls r = Some l ↔
  ∃ pre wall post,
    walls = pre ++ wall :: post ∧ Forall (λ w, ¬ Light.collides r w) pre ∧
    Light.collides r wall ∧ l = Wall.line wall.
Proof.
  unfold Light.colliding_wall. split.
  - destruct (list_find _ walls) as [[k wall]|] eqn:Hf; [|done].
    intros [= <-]. apply list_find_Some in Hf as (Hk & Hc & Hpre).
    exists (take k walls), wall, (drop (S k) walls). split_and!; [|..|done|done].
    + by rewrite take_drop_middle.
    + apply Forall_forall. intros w Hw.
      apply list_elem_of_lookup in Hw as [j Hj].
      assert (j < k)%nat as Hjk.
      { apply lookup_lt_Some in Hj. rewrite length_take in Hj. lia. }
      rewrite lookup_take_lt in Hj by done. eauto.
  - intros (pre & wall & post & -> & Hpre & Hc & ->).
    assert (list_find (Light.collides r) (pre ++ wall :: post)
            = Some (length pre, wall)) as ->; [|done].
    apply list_find_Some. split_and!; [|done|].
    + by rewrite list_lookup_middle.
    + intros j w Hj Hlt. rewrite lookup_app_l in Hj by done.
      rewrite Forall_forall in Hpre. apply Hpre.
      apply list_elem_of_lookup. eauto.
Qed.

Lemma colliding_wall_None walls r :
  Light.colliding_wall walls r = None ↔ Forall (λ w, ¬ Light.collides r w) walls.
Proof.
  unfold Light.colliding_wall.
  destruct (list_find _ walls) as [[k wall]|] eqn:Hf.
  - split; [done|]. intros Hall. apply list_find_Some in Hf as (Hk & Hc & _).
    rewrite Forall_forall in Hall. destruct (Hall wall); [|done].
    apply list_elem_of_lookup. eauto.
  - split; [|done]. intros _. by apply list_find_None in Hf.
Qed.

(** What a finished run of the loop guarantees for the rays from
    position [i] on, and for the rays it found colliding. *)
Lemma resolve_loop_inv fuel walls origin rays i col rays' col' :
  Light.resolve_loop fuel walls origin rays i col = Some (Ok (rays', col')) →
  rays `prefix_of` rays' ∧ col `prefix_of` col' ∧
  (Forall (λ r, is_Some (Light.colliding_wall walls r)) col →
   Forall (λ r, is_Some (Light.colliding_wall walls r)) col') ∧
  ∀ j r w1 w2, (i ≤ j)%nat → rays' !! j = Some r →
    Light.colliding_wall walls r = Some (w1, w2) →
    r ∈ col' ∧
    ∃ p, Light.get_intersection (ray_0 r) (ray_1 r) w1 w2 = Ok p ∧
         Ray2 origin p ∈ rays'.
Proof.
  revert rays i col. induction fuel as [|fuel IH]; intros rays i col; [done|].
  simpl. destruct (rays !! i) as [r|] eqn:Hr.
  - destruct (Light.colliding_wall walls r) as [[w1 w2]|] eqn:Hc.
    + destruct (Light.get_intersection _ _ _ _) as [p|] eqn:Hp; [|done].
      intros Hrun. apply IH in Hrun as (Hpre & Hcol & Hall & Hfrom).
      assert (rays `prefix_of` rays') as Hpre'.
      { etrans; [|exact Hpre]. by apply prefix_app_r. }
      split_and!; [done|by etrans; [apply prefix_app_r|]| |].
      * intros Hc0. apply Hall. apply Forall_app. split; [done|].
        constructor; [by rewrite Hc|constructor].
      * intros j r' v1 v2 Hj Hr' Hc'.
        destruct (decide (j = i)) as [->|]; [|apply (Hfrom j); [lia|done..]].
        rewrite (prefix_lookup_Some _ _ _ _ Hr Hpre') in Hr'.
        injection Hr' as <-. rewrite Hc in Hc'. injection Hc' as <- <-. split.
        -- eapply elem_of_prefix; [|exact Hcol]. set_solver.
        -- exists p. split; [done|].
           eapply elem_of_prefix; [|exact Hpre]. set_solver.
    + intros Hrun. apply IH in Hrun as (Hpre & Hcol & Hall & Hfrom).
      split_and!; [done..|].
      intros j r' v1 v2 Hj Hr' Hc'.
      destruct (decide (j = i)) as [->|]; [|apply (Hfrom j); [lia|done..]].
      rewrite (prefix_lookup_Some _ _ _ _ Hr Hpre) in Hr'.
      injection Hr' as <-. by rewrite Hc in Hc'.
  - intros [= <- <-]. split_and!; [done..|].
    intros j r' v1 v2 Hj Hr'. apply lookup_lt_Some in Hr'.
    apply lookup_ge_None in Hr. lia.
Qed.

Lemma resolve_loop_length fuel walls origin rays i col rays' col' :
  Light.resolve_loop fuel walls origin rays i col = Some (Ok (rays', col')) →
  (length rays' + length col = length rays + length col')%nat.
Proof.
  revert rays i col. induction fuel as [|fuel IH]; intros rays i col; [done|].
  simpl. destruct (rays !! i) as [r|]; [|by intros [= <- <-]].
  destruct (Light.colliding_wall walls r) as [[w1 w2]|]; [|apply IH].
  destruct (Light.get_intersection _ _ _ _) as [p|]; [|done].
  intros Hrun. apply IH in Hrun. rewrite !length_app in Hrun. simpl in Hrun. lia.
Qed.

End resolver_facts.

(** * The rounds of the resolver *)
Section resolver_rounds.
Context `{G : Geometry}.



End resolver_rounds.


(** * Exact arithmetic: from [Qc] to [Q] *)

Lemma Qc_eq_this (x y : Qc) : x = y ↔ (this x == this y)%Q.
Proof. split; [by intros ->|apply Qc_is_canon]. Qed.

(** Turn a goal on [Qc] built from [+], [-], [*] and the orders into the
    same goal on [Q], where [lra] and [nra] apply. *)
Ltac qc2q :=
  repeat match goal with
  | H : @eq Qc _ _ |- _ => apply Qc_eq_this in H
  | H : ¬ @eq Qc _ _ |- _ => rewrite Qc_eq_this in H
  | |- @eq Qc _ _ => apply Qc_eq_this
  | |- ¬ @eq Qc _ _ => rewrite Qc_eq_this
  end;
  unfold Qclt, Qcle, Qcminus, Qcplus, Qcmult, Qcopp, Q2Qc in *;
  cbn [this] in *;
  rewrite ?Qred_correct in *.

Section crossing.

(** [segments_cross] as a proposition on the four directions. *)
Lemma segments_cross_true p1 p2 p3 p4 :
  Light.segments_cross (p1, p2) (p3, p4) = true ↔
  ((0 < Light.get_direction p3 p4 p1 ∧ Light.get_direction p3 p4 p2 < 0) ∨
   (Light.get_direction p3 p4 p1 < 0 ∧ 0 < Light.get_direction p3 p4 p2)) ∧
  ((0 < Light.get_direction p1 p2 p3 ∧ Light.get_direction p1 p2 p4 < 0) ∨
   (Light.get_direction p1 p2 p3 < 0 ∧ 0 < Light.get_direction p1 p2 p4)).
Proof. unfold Light.segments_cross. apply bool_decide_eq_true. Qed.

(** The divisor is the difference of the directions of the wall's ends. *)
Lemma denominator_directions p1 p2 p3 p4 :
  Light.denominator p1 p2 p3 p4 =
  Light.get_direction p1 p2 p3 - Light.get_direction p1 p2 p4.
Proof.
  destruct p1, p2, p3, p4.
  unfold Light.denominator, Light.get_direction, Light.cross_product,
    Light.subtract. cbn [fst snd]. ring.
Qed.

Lemma segments_cross_denominator p1 p2 p3 p4 :
  Light.segments_cross (p1, p2) (p3, p4) = true →
  Light.denominator p1 p2 p3 p4 ≠ 0.
Proof.
  rewrite segments_cross_true, denominator_directions. intros [_ H].
  generalize dependent (Light.get_direction p1 p2 p3).
  generalize dependent (Light.get_direction p1 p2 p4).
  intros d4 d3 H. qc2q. lra.
Qed.

Lemma get_intersection_Ok p1 p2 p3 p4 :
  Light.denominator p1 p2 p3 p4 ≠ 0 →
  ∃ s, s * Light.denominator p1 p2 p3 p4 = - Light.get_direction p3 p4 p1 ∧
       Light.get_intersection p1 p2 p3 p4 =
         Ok (p1.1 + s * (p2.1 - p1.1), p1.2 + s * (p2.2 - p1.2)).
Proof.
  intros Hd. unfold Light.get_intersection, Light.denominator in *.
  cbv zeta in *. case_decide as Hz; [done|].
  eexists. split; [|reflexivity].
  destruct p1, p2, p3, p4.
  unfold Light.get_direction, Light.cross_product, Light.subtract.
  cbn [fst snd] in *. field. done.
Qed.

Lemma get_intersection_Raise p1 p2 p3 p4 e :
  Light.get_intersection p1 p2 p3 p4 = Raise e →
  Light.denominator p1 p2 p3 p4 = 0.
Proof.
  unfold Light.get_intersection, Light.denominator. cbv zeta.
  by case_decide.
Qed.

Lemma denominator_ray_directions p1 p2 p3 p4 :
  Light.denominator p1 p2 p3 p4 =
  Light.get_direction p3 p4 p2 - Light.get_direction p3 p4 p1.
Proof.
  destruct p1, p2, p3, p4.
  unfold Light.denominator, Light.get_direction, Light.cross_product,
    Light.subtract. cbn [fst snd]. ring.
Qed.

(** Directions seen from a point [i = o + s (p - o)] of the ray. *)
Lemma get_direction_affine (c d o p : point) (s : num) :
  let i := (o.1 + s * (p.1 - o.1), o.2 + s * (p.2 - o.2)) in
  Light.get_direction c d i =
  Light.get_direction c d o +
  s * (Light.get_direction c d p - Light.get_direction c d o).
Proof.
  destruct c, d, o, p.
  unfold Light.get_direction, Light.cross_product, Light.subtract.
  cbn [fst snd]. ring.
Qed.

Lemma get_direction_scale (o p c : point) (s : num) :
  let i := (o.1 + s * (p.1 - o.1), o.2 + s * (p.2 - o.2)) in
  Light.get_direction o i c = s * Light.get_direction o p c.
Proof.
  destruct c, o, p.
  unfold Light.get_direction, Light.cross_product, Light.subtract.
  cbn [fst snd]. ring.
Qed.

Lemma crossing_parameter (s d1 d2 : num) :
  (0 < d1 ∧ d2 < 0) ∨ (d1 < 0 ∧ 0 < d2) →
  s * (d2 - d1) = - d1 → 0 < s ∧ s < 1.
Proof. intros Hd Hs. qc2q. nra. Qed.

Lemma opposite_affine (s e1 e2 : num) :
  0 < s → s < 1 →
  (0 < e1 ∧ e1 + s * (e2 - e1) < 0) ∨ (e1 < 0 ∧ 0 < e1 + s * (e2 - e1)) →
  (0 < e1 ∧ e2 < 0) ∨ (e1 < 0 ∧ 0 < e2).
Proof. intros H0 H1 He. qc2q. nra. Qed.

Lemma opposite_scale (s e3 e4 : num) :
  0 < s →
  (0 < s * e3 ∧ s * e4 < 0) ∨ (s * e3 < 0 ∧ 0 < s * e4) →
  (0 < e3 ∧ e4 < 0) ∨ (e3 < 0 ∧ 0 < e4).
Proof. intros H0 He. qc2q. nra. Qed.

(** Clipping a ray at a wall it crosses: the clipped ray no longer
    crosses that wall, and crosses only walls the ray crossed. *)
Lemma clipped_ray_crossings (o p a b i : point) :
  Light.segments_cross (o, p) (a, b) = true →
  Light.get_intersection o p a b = Ok i →
  Light.segments_cross (o, i) (a, b) = false ∧
  ∀ c d, Light.segments_cross (o, i) (c, d) = true →
         Light.segments_cross (o, p) (c, d) = true.
Proof.
  intros Hx Hi.
  destruct (get_intersection_Ok o p a b) as (s & Hs & Hi');
    [by apply segments_cross_denominator|].
  rewrite Hi in Hi'. injection Hi' as ->.
  rewrite denominator_ray_directions in Hs.
  apply segments_cross_true in Hx as [Hab _].
  destruct (crossing_parameter _ _ _ Hab Hs) as [H0 H1].
  split.
  - apply not_true_is_false. rewrite segments_cross_true.
    rewrite get_direction_affine, Hs. intros [Hd _].
    revert Hd. generalize (Light.get_direction a b o). intros d1 Hd.
    qc2q. lra.
  - intros c d. rewrite !segments_cross_true.
    rewrite get_direction_affine, !get_direction_scale.
    intros [Hcd Hop]. split.
    + by apply (opposite_affine s).
    + by apply (opposite_scale s).
Qed.

End crossing.

Section strict_resolver.
Context `{G : Geometry} (Hstrict : Light.crosses_strictly G).

Lemma colliding_wall_crosses walls r w1 w2 :
  Light.colliding_wall walls r = Some (w1, w2) →
  Light.segments_cross (ray_0 r, ray_1 r) (w1, w2) = true ∧
  ∃ wall, wall ∈ walls ∧ Wall.line wall = (w1, w2).
Proof.
  intros Hc. apply colliding_wall_Some in Hc
    as (pre & wall & post & -> & _ & [_ Hx] & Hl).
  rewrite Hl. split; [by apply Hstrict|].
  exists wall. split; [set_solver|done].
Qed.

Lemma colliding_wall_intersection walls r w1 w2 :
  Light.colliding_wall walls r = Some (w1, w2) →
  Light.denominator (ray_0 r) (ray_1 r) w1 w2 ≠ 0 ∧
  ∃ p, Light.get_intersection (ray_0 r) (ray_1 r) w1 w2 = Ok p.
Proof.
  intros Hc. apply colliding_wall_crosses in Hc as [Hx _].
  apply segments_cross_denominator in Hx. split; [done|].
  destruct (get_intersection_Ok _ _ _ _ Hx) as (s & _ & ->). eauto.
Qed.

Lemma resolve_loop_no_exception fuel walls origin rays i col e :
  Light.resolve_loop fuel walls origin rays i col ≠ Some (Raise e).
Proof.
  revert rays i col. induction fuel as [|fuel IH]; intros rays i col; [done|].
  simpl. destruct (rays !! i) as [r|]; [|done].
  destruct (Light.colliding_wall walls r) as [[w1 w2]|] eqn:Hc; [|apply IH].
  destruct (colliding_wall_intersection _ _ _ _ Hc) as (_ & p & ->). apply IH.
Qed.

Lemma length_filter_lt {A} (P Q : A → Prop) `{∀ x, Decision (P x)}
    `{∀ x, Decision (Q x)} (l : list A) (x0 : A) :
  (∀ x, P x → Q x) → x0 ∈ l → Q x0 → ¬ P x0 →
  (length (filter P l) < length (filter Q l))%nat.
Proof.
  intros HPQ Hin HQ HP. induction l as [|x l IH]; [by inv Hin|].
  assert (length (filter P l) ≤ length (filter Q l))%nat as Hle.
  { clear IH Hin. induction l as [|y l IH]; [simpl; lia|].
    rewrite !filter_cons. repeat case_decide; simpl; try lia. naive_solver. }
  rewrite !filter_cons. apply elem_of_cons in Hin as [<-|Hin].
  - rewrite (decide_False (P:=P x0)), (decide_True (P:=Q x0)) by done. simpl. lia.
  - specialize (IH Hin). repeat case_decide; simpl; try lia. naive_solver.
Qed.

Lemma rounds_replacement walls origin r w1 w2 p :
  Light.colliding_wall walls r = Some (w1, w2) →
  Light.get_intersection (ray_0 r) (ray_1 r) w1 w2 = Ok p →
  (rounds walls origin (Ray2 origin p) < rounds walls origin r)%nat.
Proof.
  intros Hc Hp. apply colliding_wall_crosses in Hc as (Hx & wall & Hin & Hl).
  unfold rounds. cbn [ray_0]. rewrite decide_True by done.
  case_decide as Ho.
  - destruct (clipped_ray_crossings _ _ _ _ _ Hx Hp) as [Hno Hsub].
    apply ->Nat.succ_lt_mono. unfold crossed. cbn [ray_0 ray_1]. rewrite <-Ho.
    apply (length_filter_lt _ _ _ wall); [|done|by rewrite Hl|by rewrite Hl, Hno].
    intros [i a b]. apply Hsub.
  - pose proof (length_filter
      (λ w, Light.segments_cross (ray_0 (Ray2 origin p), ray_1 (Ray2 origin p))
              (Wall.line w) = true) walls).
    unfold crossed. lia.
Qed.

Lemma rounds_bounds walls origin r :
  (1 ≤ rounds walls origin r ≤ 2 + length walls)%nat.
Proof.
  unfold rounds, crossed. case_decide; [|lia].
  pose proof (length_filter
    (λ w, Light.segments_cross (ray_0 r, ray_1 r) (Wall.line w) = true) walls).
  lia.
Qed.

Lemma resolve_loop_enough_fuel fuel walls origin rays i col :
  (sum_list_with (rounds walls origin) (drop i rays) < fuel)%nat →
  ∃ res, Light.resolve_loop fuel walls origin rays i col = Some (Ok res).
Proof.
  revert rays i col. induction fuel as [|fuel IH]; intros rays i col Hsum; [lia|].
  simpl. destruct (rays !! i) as [r|] eqn:Hr; [|eauto].
  rewrite (drop_S _ _ _ Hr) in Hsum. simpl in Hsum.
  pose proof (rounds_bounds walls origin r).
  destruct (Light.colliding_wall walls r) as [[w1 w2]|] eqn:Hc.
  - destruct (colliding_wall_intersection _ _ _ _ Hc) as (_ & p & Hp).
    rewrite Hp. apply IH.
    pose proof (rounds_replacement walls origin _ _ _ _ Hc Hp).
    apply lookup_lt_Some in Hr.
    rewrite drop_app_le, sum_list_with_app by lia. simpl. lia.
  - apply IH. lia.
Qed.

Lemma sum_rounds_bound walls origin rays :
  (sum_list_with (rounds walls origin) rays ≤ length rays * (2 + length walls))%nat.
Proof.
  induction rays as [|r rays IH]; [done|].
  pose proof (rounds_bounds walls origin r). simpl in *. lia.
Qed.

End strict_resolver.

(** On exact numbers, when what [crosses] accepts is a strict crossing: a
    ray and a wall with a zero divisor (parallel or collinear) are never
    reported as crossing, every wall the resolver picks has a nonzero
    divisor and an intersection point, and the resolver never raises. *)
Lemma exact_crossing_never_divides `{G : Geometry} :
  Light.crosses_strictly G →
  (∀ r w, Light.denominator r.1 r.2 w.1 w.2 = 0 → crosses r w = false) ∧
  (∀ walls r w1 w2,
     Light.colliding_wall walls r = Some (w1, w2) →
     Light.denominator (ray_0 r) (ray_1 r) w1 w2 ≠ 0 ∧
     ∃ p, Light.get_intersection (ray_0 r) (ray_1 r) w1 w2 = Ok p) ∧
  (∀ fuel walls origin rays e,
     Light.resolve fuel walls origin rays ≠ Some (Raise e)).
Proof.
  intros Hstrict. split_and!.
  - intros [p1 p2] [p3 p4] Hd. apply not_true_is_false. intros Hx.
    by apply Hstrict, segments_cross_denominator in Hx.
  - by apply colliding_wall_intersection.
  - intros fuel walls origin rays e. unfold Light.resolve.
    pose proof (resolve_loop_no_exception Hstrict fuel
      (Light.sort_walls origin walls) origin rays 0 []) as Hno.
    destruct (Light.resolve_loop _ _ _ _ _ _) as [[[rays' col]|e']|]; [done| |done].
    intros [= ->]. by destruct (Hno e).
Qed.

(** On exact numbers, when what [crosses] accepts is a strict crossing: the
    loop over the growing ray list finishes for all walls and rays, within
    one round per ray and per wall it may cross plus two; each ray found
    colliding added one ray, and every ray of the final working list,
    appended or not, was examined.  A replacement ray ends on the wall it was
    clipped at and crosses one wall less; this is what rounding breaks. *)
Lemma exact_resolve_loop_terminates `{G : Geometry} (walls : list Wall.t)
    (origin : point) (rays : list ray) :
  Light.crosses_strictly G →
  ∃ rays' col,
    Light.resolve_loop (S (length rays * (2 + length walls))) walls origin rays 0 []
      = Some (Ok (rays', col)) ∧
    length rays' = (length rays + length col)%nat ∧
    ∀ r, r ∈ rays' → is_Some (Light.colliding_wall walls r) → r ∈ col.
Proof.
  intros Hstrict.
  destruct (resolve_loop_enough_fuel Hstrict
    (S (length rays * (2 + length walls))) walls origin rays 0 [])
    as [[rays' col] Hrun].
  { rewrite drop_0. pose proof (sum_rounds_bound walls origin rays). lia. }
  exists rays', col. split; [done|].
  split.
  - apply resolve_loop_length in Hrun. simpl in Hrun. lia.
  - intros r Hr [[w1 w2] Hc]. apply list_elem_of_lookup in Hr as [j Hj].
    apply resolve_loop_inv in Hrun as (_ & _ & _ & Hfrom).
    by destruct (Hfrom j r w1 w2 ltac:(lia) Hj Hc).
Qed.

(** * Ray Caster *)
Section caster_facts.
Context `{G : Geometry}.

Lemma not_ray2_in (rays : list ray) r1 r2 :
  Forall is_ray4 rays → Ray2 r1 r2 ∉ rays.
Proof. intros Hall Hin. rewrite Forall_forall in Hall. by apply Hall in Hin. Qed.

Lemma append_offset_app rays o begins ends :
  Light.append_offset rays o begins ends = rays ++ offset_list o begins ends.
Proof. destruct o as [[r1 r2]|]; simpl; [done|by rewrite app_nil_r]. Qed.

Lemma offset_list_ray4 o begins ends : Forall is_ray4 (offset_list o begins ends).
Proof. destruct o as [[r1 r2]|]; simpl; by repeat constructor. Qed.

Lemma offset_rays_cases q origin end_a end_b n t angle oa ob :
  Light.offset_rays q origin end_a end_b n t angle = (oa, ob) →
  (oa = None ∨ oa = Some (origin, end_a)) ∧
  (ob = None ∨ ob = Some (origin, end_a) ∨ ob = Some (origin, end_b)).
Proof.
  unfold Light.offset_rays. destruct q; repeat case_decide; intros [= <- <-]; auto.
Qed.

Lemma offset_lists_block origin max_range e oa ob :
  let angle := calculate_angle origin (Endpoint.position e) in
  let end_a := move_along_vector origin max_range (- angle + angle_a) in
  let end_b := move_along_vector origin max_range (- angle - angle_a) in
  (oa = None ∨ oa = Some (origin, end_a)) →
  (ob = None ∨ ob = Some (origin, end_a) ∨ ob = Some (origin, end_b)) →
  ray_block origin max_range e
    (Ray4 origin (Endpoint.position e) (Endpoint.begins e) (Endpoint.ends e)
       :: (offset_list oa (Endpoint.begins e) (Endpoint.ends e) ++
           offset_list ob (Endpoint.begins e) (Endpoint.ends e))
       ++ [Light.workaround_ray origin]).
Proof.
  intros angle end_a end_b Ha Hb. eexists. split; [reflexivity|].
  assert (∀ t, t = end_a ∨ t = end_b →
    ∃ a, a ∈ [- angle + angle_a; - angle - angle_a] ∧
      Ray4 origin t (Endpoint.begins e) (Endpoint.ends e) =
      Ray4 origin (move_along_vector origin max_range a)
        (Endpoint.begins e) (Endpoint.ends e)) as Hend.
  { intros t [-> | ->]; eexists; (split; [|reflexivity]); set_solver. }
  destruct Ha as [-> | ->], Hb as [-> | [-> | ->]]; simpl;
    (split; [lia|]); repeat constructor; auto.
Qed.

Lemma cast_step_rays walls origin max_range rays edge ed e rays' edge' ed' :
  Forall is_ray4 rays →
  Light.cast_step walls origin max_range (rays, edge, ed) e
    = Ok (rays', edge', ed') →
  rays' = rays ∨
  (¬ max_range < distance_2d origin (Endpoint.position e) ∧
   ∃ block, ray_block origin max_range e block ∧ rays' = rays ++ block).
Proof.
  intros Hall. unfold Light.cast_step.
  case_decide as Hrange; [intros [= <- <- <-]; by left|].
  destruct (Light.not_blocked _ _ _ _ _) as [[]|]; bind_simpl;
    [|intros [= <- <- <-]; by left|done].
  destruct (Light.lookup_wall walls (Endpoint.ends e)) as [we|]; bind_simpl;
    [|done].
  destruct (decide (_ < _)) as [Hangle|Hangle];
    (destruct (Light.lookup_wall walls (Endpoint.begins e)) as [wb|];
     bind_simpl; [|done]);
    (destruct (Light.offset_rays _ _ _ _ _ _ _) as [oa ob] eqn:Ho);
    apply offset_rays_cases in Ho as [Ha Hb];
    rewrite !append_offset_app;
    (rewrite (decide_False (P := Ray2 _ _ ∈ _));
     [|apply not_ray2_in; rewrite !Forall_app; split_and!;
       [done|by repeat constructor|apply offset_list_ray4..]]);
    intros [= <- <- <-]; right; (split; [done|]);
    (eexists; split; [by apply offset_lists_block|]);
    by rewrite <-!(assoc_L (++)).
Qed.

Lemma ray_block_ray4 origin max_range e block :
  ray_block origin max_range e block → Forall is_ray4 block.
Proof.
  intros (offsets & -> & _ & Hoff). constructor; [done|].
  apply Forall_app. split; [|by repeat constructor].
  eapply Forall_impl; [exact Hoff|]. by intros r (a & _ & ->).
Qed.

Lemma cast_loop_blocks walls origin max_range endpoints rays edge ed rays' edge' ed' :
  Forall is_ray4 rays →
  Light.cast_loop walls origin max_range (rays, edge, ed) endpoints
    = Ok (rays', edge', ed') →
  ∃ cast blocks,
    rays' = rays ++ mjoin blocks ∧ cast `sublist_of` endpoints ∧
    Forall2 (ray_block origin max_range) cast blocks ∧
    Forall (λ e, ¬ max_range < distance_2d origin (Endpoint.position e)) cast.
Proof.
  revert rays edge ed.
  induction endpoints as [|e endpoints IH]; intros rays edge ed Hall;
    cbn [Light.cast_loop].
  - intros [= <- <- <-]. exists [], []. by rewrite app_nil_r.
  - destruct (Light.cast_step _ _ _ _ _) as [[[rays1 edge1] ed1]|] eqn:Hstep;
      bind_simpl; [|done].
    intros Hloop.
    apply (cast_step_rays _ _ _ _ _ _ _ _ _ _ Hall) in Hstep
      as [->|(Hrange & block & Hb & ->)].
    + apply IH in Hloop as (cast & blocks & -> & Hsub & Hbl & Hr); [|done].
      exists cast, blocks. split_and!; [done|by constructor|done..].
    + apply IH in Hloop as (cast & blocks & -> & Hsub & Hbl & Hr).
      2: { apply Forall_app. eauto using ray_block_ray4. }
      exists (e :: cast), (block :: blocks). simpl.
      rewrite <-(assoc_L (++)). split_and!; [done|by constructor|by constructor..].
Qed.
End caster_facts.

(** C4.  What the code does: the list [cast_rays] returns is made of one
    block per endpoint a primary ray is cast to, and every block ends with
    the ray toward (0, 0).  The test before the append looks for a 2-tuple
    in a list of 4-tuples and never finds one, so there are at least as
    many rays toward (0, 0) as primary rays. *)
Theorem cast_rays_workaround_every_round `{G : Geometry} (walls : list Wall.t)
    (endpoints : list Endpoint.t) (origin : point) (max_range : num)
    (rays : list ray) :
  Light.cast_rays walls endpoints origin max_range = Ok rays →
  ∃ cast blocks,
    rays = mjoin blocks ∧ cast `sublist_of` endpoints ∧
    Forall2 (ray_block origin max_range) cast blocks ∧
    (length (filter (λ r, r = Light.workaround_ray origin) rays) ≥ length cast)%nat.
Proof.
  unfold Light.cast_rays.
  destruct (Light.cast_loop _ _ _ _ _) as [[[rays' edge] ed]|] eqn:Hloop; [|done].
  simpl. intros [= <-].
  apply cast_loop_blocks in Hloop as (cast & blocks & -> & Hsub & Hbl & _); [|done].
  exists cast, blocks. split_and!; [done..|]. simpl.
  clear Hsub. induction Hbl as [|e block cast blocks Hb _ IH]; [simpl; lia|].
  destruct Hb as (offsets & -> & _).
  change (mjoin (?b :: blocks)) with (b ++ mjoin blocks).
  rewrite filter_app, length_app.
  assert (Light.workaround_ray origin ∈
            filter (λ r, r = Light.workaround_ray origin)
              (Ray4 origin (Endpoint.position e) (Endpoint.begins e)
                 (Endpoint.ends e) :: offsets ++ [Light.workaround_ray origin]))
    as Hin by (apply list_elem_of_filter; set_solver).
  destruct (filter _ (_ :: _ ++ _)); [by inv Hin|]. simpl in *. lia.
Qed.

Section lookup_facts.
Context `{G : Geometry}.

Lemma lookup_wall_Ok walls key :
  has_key walls key → ∃ w, Light.lookup_wall walls key = Ok w.
Proof.
  intros (w & Hw & ->). unfold Light.lookup_wall.
  destruct (list_find_elem_of (λ w', Wall.id w' = Wall.id w) walls w Hw eq_refl)
    as [[k w'] ->]. eauto.
Qed.

Lemma lookup_wall_Raise walls key :
  ¬ has_key walls key → Light.lookup_wall walls key = Raise KeyError.
Proof.
  intros Hno. unfold Light.lookup_wall. destruct key as [k|]; [|done].
  destruct (list_find _ walls) as [[j w]|] eqn:Hf; [|done].
  apply list_find_Some in Hf as (Hj & <- & _). destruct Hno.
  exists w. split; [|done]. apply list_elem_of_lookup. eauto.
Qed.

Lemma lookup_wall_exn walls key e :
  Light.lookup_wall walls key = Raise e → e = KeyError.
Proof.
  unfold Light.lookup_wall. destruct key as [k|]; [|congruence].
  destruct (list_find _ walls) as [[j w]|]; congruence.
Qed.

Lemma not_blocked_Ok origin position begins edge ed :
  (is_Some edge → is_Some ed) →
  ∃ go, Light.not_blocked origin position begins edge ed = Ok go.
Proof.
  intros Htr. unfold Light.not_blocked. destruct edge as [k|]; [|eauto].
  case_decide; [eauto|]. destruct Htr as [d ->]; eauto.
Qed.

Lemma cast_step_Ok walls origin max_range st e :
  edge_tracked st →
  has_key walls (Endpoint.begins e) → has_key walls (Endpoint.ends e) →
  ∃ st', Light.cast_step walls origin max_range st e = Ok st' ∧ edge_tracked st'.
Proof.
  destruct st as [[rays edge] ed]. unfold edge_tracked. cbn [fst snd].
  intros Htr Hb He. unfold Light.cast_step.
  case_decide; [eauto|].
  destruct (not_blocked_Ok origin (Endpoint.position e) (Endpoint.begins e)
              edge ed Htr) as [[] ->]; bind_simpl; [|eauto].
  destruct (lookup_wall_Ok _ _ He) as [we ->].
  destruct (lookup_wall_Ok _ _ Hb) as [wb ->]. bind_simpl.
  destruct (decide (_ < _)); bind_simpl;
    destruct (Light.offset_rays _ _ _ _ _ _ _) as [oa ob];
    eexists; (split; [reflexivity|]); cbn [fst snd]; eauto.
  by intros [? ?].
Qed.

Lemma cast_loop_Ok walls origin max_range st endpoints :
  edge_tracked st →
  Forall (λ e, has_key walls (Endpoint.begins e) ∧
               has_key walls (Endpoint.ends e)) endpoints →
  ∃ st', Light.cast_loop walls origin max_range st endpoints = Ok st'.
Proof.
  intros Htr Hall. revert st Htr.
  induction Hall as [|e endpoints [Hb He] _ IH]; intros st Htr;
    cbn [Light.cast_loop]; [eauto|].
  destruct (cast_step_Ok walls origin max_range st e Htr Hb He)
    as (st' & -> & Htr'). bind_simpl. by apply IH.
Qed.

Lemma cast_step_KeyError walls origin max_range rays edge ed e :
  ¬ max_range < distance_2d origin (Endpoint.position e) →
  Light.not_blocked origin (Endpoint.position e) (Endpoint.begins e) edge ed
    = Ok true →
  ¬ (has_key walls (Endpoint.begins e) ∧ has_key walls (Endpoint.ends e)) →
  Light.cast_step walls origin max_range (rays, edge, ed) e = Raise KeyError.
Proof.
  intros Hrange Hgo Hkeys. unfold Light.cast_step.
  rewrite decide_False by done. rewrite Hgo. bind_simpl.
  destruct (Light.lookup_wall walls (Endpoint.ends e)) as [we|ee] eqn:He;
    bind_simpl; [|by apply lookup_wall_exn in He as ->].
  rewrite lookup_wall_Raise; [by case_decide|].
  intros Hb. apply Hkeys. split; [done|].
  unfold Light.lookup_wall in He. destruct (Endpoint.ends e) as [k|]; [|done].
  destruct (list_find _ walls) as [[j w]|] eqn:Hf; [|done].
  apply list_find_Some in Hf as (Hj & <- & _).
  exists w. split; [|done]. apply list_elem_of_lookup. eauto.
Qed.

End lookup_facts.

(** * What the second loop of [find_endpoints] leaves in [begins], [ends] *)

Lemma has_key_cons w walls key : has_key walls key → has_key (w :: walls) key.
Proof. intros (w' & Hw' & ->). exists w'. split; [set_solver|done]. Qed.

Lemma has_key_here w walls : has_key (w :: walls) (Some (Wall.id w)).
Proof. exists w. split; [set_solver|done]. Qed.

Lemma mark_all_keys walls eps e' :
  e' ∈ Light.mark_all walls eps →
  ∃ e, e ∈ eps ∧ Endpoint.position e' = Endpoint.position e ∧
    (Endpoint.begins e' = Endpoint.begins e ∨ has_key walls (Endpoint.begins e')) ∧
    (Endpoint.ends e' = Endpoint.ends e ∨ has_key walls (Endpoint.ends e')) ∧
    ((∃ w, w ∈ walls ∧ Wall.a w = Endpoint.position e) →
     has_key walls (Endpoint.begins e')) ∧
    ((∃ w, w ∈ walls ∧ Wall.b w = Endpoint.position e ∧
           Wall.a w ≠ Endpoint.position e) →
     has_key walls (Endpoint.ends e')).
Proof.
  revert eps. induction walls as [|w walls IH]; intros eps.
  - intros He'. exists e'. split_and!; [done|done|by left|by left|..];
      intros (w & Hw & _); by inv Hw.
  - cbn [Light.mark_all fold_left]. intros He'. apply IH in He'
      as (e1 & He1 & Hpos & Hb & He & Hba & Heb).
    apply list_elem_of_fmap in He1 as (e & -> & Hin).
    rewrite mark_position in Hpos, Hba, Heb.
    exists e. split; [done|]. split; [done|].
    assert (Endpoint.begins (Light.mark w e) = Endpoint.begins e ∨
            Endpoint.begins (Light.mark w e) = Some (Wall.id w)) as Hmb.
    { unfold Light.mark. repeat case_decide; auto. }
    assert (Endpoint.ends (Light.mark w e) = Endpoint.ends e ∨
            Endpoint.ends (Light.mark w e) = Some (Wall.id w)) as Hme.
    { unfold Light.mark. repeat case_decide; auto. }
    assert (has_key (w :: walls) (Some (Wall.id w))) as Hw by apply has_key_here.
    split_and!.
    + destruct Hb as [Hb|Hb]; [|right; by apply has_key_cons].
      rewrite Hb. destruct Hmb as [->| ->]; auto.
    + destruct He as [He|He]; [|right; by apply has_key_cons].
      rewrite He. destruct Hme as [->| ->]; auto.
    + intros (w' & Hw' & Ha). apply elem_of_cons in Hw' as [->|Hw'];
        [|apply has_key_cons; eauto].
      destruct Hb as [Hb|Hb]; [|by apply has_key_cons].
      rewrite Hb. unfold Light.mark. by rewrite decide_True.
    + intros (w' & Hw' & Hbp & Hap). apply elem_of_cons in Hw' as [->|Hw'];
        [|apply has_key_cons; eauto].
      destruct He as [He|He]; [|by apply has_key_cons].
      rewrite He. unfold Light.mark. rewrite decide_False by done.
      by rewrite decide_True.
Qed.

Lemma find_endpoints_keys count walls e :
  e ∈ Light.find_endpoints count walls →
  ((∃ w, w ∈ walls ∧ Wall.a w = Endpoint.position e) →
   has_key walls (Endpoint.begins e)) ∧
  ((∃ w, w ∈ walls ∧ Wall.b w = Endpoint.position e ∧
         Wall.a w ≠ Endpoint.position e) →
   has_key walls (Endpoint.ends e)).
Proof.
  unfold Light.find_endpoints. intros He.
  apply mark_all_keys in He as (e0 & _ & Hpos & _ & _ & Hb & He).
  rewrite Hpos. by split.
Qed.

(** * Closed polygons: every point starts an edge and ends a proper edge *)

Lemma consecutive_tail x tl e :
  e ∈ Light.consecutive tl → e ∈ Light.consecutive (x :: tl).
Proof. destruct tl as [|y tl]; [done|]. simpl. set_solver. Qed.

Lemma consecutive_starts pts p :
  p ∈ pts → (∃ b, (p, b) ∈ Light.consecutive pts) ∨ last pts = Some p.
Proof.
  induction pts as [|x tl IH]; [by inversion 1|].
  destruct tl as [|y tl].
  - intros Hp. apply list_elem_of_singleton in Hp as ->. by right.
  - intros Hp. apply elem_of_cons in Hp as [->|Hp].
    + left. exists y. simpl. set_solver.
    + destruct (IH Hp) as [[b Hb]|Hl].
      * left. exists b. by apply consecutive_tail.
      * right. by rewrite last_cons, Hl.
Qed.

Lemma consecutive_first_occurrence pts p :
  p ∈ pts → (∃ a, a ≠ p ∧ (a, p) ∈ Light.consecutive pts) ∨ head pts = Some p.
Proof.
  induction pts as [|x tl IH]; [by inversion 1|].
  intros Hp. destruct (decide (x = p)) as [->|Hx]; [by right|].
  apply elem_of_cons in Hp as [->|Hp]; [done|]. left.
  destruct (IH Hp) as [(a & Ha & Hin)|Hh].
  - exists a. split; [done|]. by apply consecutive_tail.
  - exists x. split; [done|]. destruct tl as [|y tl]; [done|].
    injection Hh as ->. simpl. set_solver.
Qed.

Lemma consecutive_back_to pts p q :
  q ∈ pts → q ≠ p → last pts = Some p →
  ∃ a, a ≠ p ∧ (a, p) ∈ Light.consecutive pts.
Proof.
  revert q. induction pts as [|x tl IH]; intros q; [by inversion 1|].
  intros Hq Hqp Hl. destruct tl as [|y tl].
  - apply list_elem_of_singleton in Hq as ->. by injection Hl.
  - assert (last (y :: tl) = Some p) as Hl'.
    { destruct (last (y :: tl)) as [z|] eqn:E.
      - by rewrite last_cons, E in Hl.
      - rewrite last_cons in E. by destruct (last tl). }
    assert (∀ q', q' ∈ y :: tl → q' ≠ p →
              ∃ a, a ≠ p ∧ (a, p) ∈ Light.consecutive (x :: y :: tl)) as Htl.
    { intros q' Hq' Hne. destruct (IH q' Hq' Hne Hl') as (a & Ha & Hin).
      exists a. split; [done|]. by apply consecutive_tail. }
    apply elem_of_cons in Hq as [->|Hq]; [|by apply (Htl q)].
    destruct (decide (y = p)) as [->|Hy].
    + exists x. split; [done|]. simpl. set_solver.
    + apply (Htl y); [set_solver|done].
Qed.

Lemma polygon_edges_consecutive pts f l :
  head pts = Some f → last pts = Some l →
  polygon_edges pts = Light.consecutive pts ++ [(l, f)].
Proof.
  intros Hf Hl. destruct pts as [|p tl]; [done|]. injection Hf as ->.
  unfold polygon_edges.
  change (drop 1 (f :: tl) ++ take 1 (f :: tl)) with (tl ++ [f]).
  by rewrite consecutive_zip, Hl.
Qed.

Lemma polygon_edges_elem_of pts a b :
  (a, b) ∈ polygon_edges pts → a ∈ pts ∧ b ∈ pts.
Proof.
  unfold polygon_edges. intros Hin. split.
  - by apply elem_of_zip_l in Hin.
  - apply elem_of_zip_r in Hin. apply elem_of_app in Hin as [Hin|Hin].
    + by eapply subseteq_drop.
    + by eapply subseteq_take.
Qed.

Lemma head_last_nonempty (pts : list point) p :
  p ∈ pts → ∃ f l, head pts = Some f ∧ last pts = Some l.
Proof.
  destruct pts as [|f tl]; [by inversion 1|]. intros _.
  exists f. rewrite last_cons. destruct (last tl); eauto.
Qed.

Lemma polygon_edges_starts pts p :
  p ∈ pts → ∃ b, (p, b) ∈ polygon_edges pts.
Proof.
  intros Hp. destruct (head_last_nonempty pts p Hp) as (f & l & Hf & Hl).
  rewrite (polygon_edges_consecutive pts f l) by done.
  destruct (consecutive_starts pts p Hp) as [[b Hb]|Hlp].
  - exists b. set_solver.
  - exists f. rewrite Hl in Hlp. injection Hlp as <-. set_solver.
Qed.

Lemma polygon_edges_ends pts p q :
  p ∈ pts → q ∈ pts → q ≠ p → ∃ a, a ≠ p ∧ (a, p) ∈ polygon_edges pts.
Proof.
  intros Hp Hq Hqp. destruct (head_last_nonempty pts p Hp) as (f & l & Hf & Hl).
  rewrite (polygon_edges_consecutive pts f l) by done.
  destruct (consecutive_first_occurrence pts p Hp) as [(a & Ha & Hin)|Hh].
  - exists a. set_solver.
  - assert (f = p) as -> by congruence.
    destruct (decide (l = p)) as [->|Hlp].
    + destruct (consecutive_back_to pts p q Hq Hqp Hl) as (a & Ha & Hin).
      exists a. set_solver.
    + exists l. set_solver.
Qed.

Section keys_of_find_walls.
Context `{G : Geometry}.

Lemma find_walls_keys wall_count endpoint_count obstacles walls endpoints :
  SCREEN_H ≠ 0 → SCREEN_W ≠ 0 →
  Forall two_distinct_points obstacles →
  Light.find_walls wall_count endpoint_count obstacles = Ok (walls, endpoints) →
  Forall (λ e, has_key walls (Endpoint.begins e) ∧
               has_key walls (Endpoint.ends e)) endpoints.
Proof.
  intros HH HW Hobs Hfw.
  assert (Forall (λ o, points o ≠ []) obstacles) as Hne.
  { eapply Forall_impl; [exact Hobs|]. intros o (p & _ & Hp & _) Hnil.
    rewrite Hnil in Hp. by inv Hp. }
  unfold Light.find_walls in Hfw. rewrite obstacles_walls_nonempty in Hfw by done.
  injection Hfw as <- <-.
  set (segs := Light.borders ++ (o ← obstacles; polygon_edges (points o))).
  set (walls := Light.make_walls wall_count segs).
  assert (∀ a b, (a, b) ∈ segs ↔ ∃ w, w ∈ walls ∧ Wall.a w = a ∧ Wall.b w = b)
    as Hsegs.
  { intros a b. unfold walls. rewrite <-(make_walls_line wall_count segs) at 1.
    rewrite list_elem_of_fmap. unfold Wall.line. naive_solver. }
  assert (∀ p, p ∈ Light.endings walls →
            (∃ b, (p, b) ∈ segs) ∧ (∃ a, a ≠ p ∧ (a, p) ∈ segs)) as Hends.
  { intros p Hp. unfold Light.endings in Hp.
    apply list_elem_of_bind in Hp as (w & Hp & Hw).
    assert ((Wall.a w, Wall.b w) ∈ segs) as Hseg by (apply Hsegs; eauto).
    assert (p = Wall.a w ∨ p = Wall.b w) as Hpw by set_solver.
    clear Hp Hw. revert Hseg Hpw.
    generalize (Wall.a w) (Wall.b w). intros a b Hseg Hpw.
    unfold segs in *. rewrite elem_of_app in Hseg.
    destruct Hseg as [Hseg|Hseg].
    - assert (∀ c1 c2 : point, c1 ≠ c2 → c2 ≠ c1) as Hsym by done.
      assert ((SCREEN_H, 0) ≠ (SCREEN_H, SCREEN_W)) as H1 by congruence.
      assert ((SCREEN_H, SCREEN_W) ≠ (0, SCREEN_W)) as H2 by congruence.
      assert (((0, SCREEN_W) : point) ≠ (0, 0)) as H3 by congruence.
      assert ((0, 0) ≠ (SCREEN_H, 0)) as H4 by congruence.
      unfold Light.borders, Light.north_border, Light.east_border,
        Light.south_border, Light.west_border in *.
      repeat setoid_rewrite elem_of_app. repeat setoid_rewrite elem_of_cons.
      rewrite !elem_of_cons in Hseg.
      destruct Hseg as [Hs|[Hs|[Hs|[Hs|Hs]]]]; [..|by inv Hs];
        injection Hs as -> ->; destruct Hpw as [-> | ->];
        split; eexists; eauto 10.
    - apply list_elem_of_bind in Hseg as (o & Hseg & Ho).
      apply polygon_edges_elem_of in Hseg as [Ha Hb].
      assert (p ∈ points o) as Hp by (by destruct Hpw as [-> | ->]).
      rewrite Forall_forall in Hobs. destruct (Hobs o Ho) as (q1 & q2 & Hq1 & Hq2 & Hq).
      assert (∃ q, q ∈ points o ∧ q ≠ p) as (q & Hq' & Hqp).
      { destruct (decide (q1 = p)) as [->|]; [exists q2|exists q1]; auto. }
      destruct (polygon_edges_starts _ _ Hp) as [b' Hb'].
      destruct (polygon_edges_ends _ _ _ Hp Hq' Hqp) as (a' & Ha' & Hin').
      split; [exists b'|exists a'; split; [done|]];
        apply elem_of_app; right; apply list_elem_of_bind; eauto. }
  apply Forall_forall. intros e He.
  assert (Endpoint.position e ∈ Light.endings walls) as Hp.
  { apply (find_endpoints_positions endpoint_count).
    by apply list_elem_of_fmap_2. }
  destruct (Hends _ Hp) as [[b Hb] (a & Ha & Hin)].
  apply find_endpoints_keys in He as [Hbeg Hend]. split.
  - apply Hbeg. apply Hsegs in Hb as (w & ? & ? & ?). eauto.
  - apply Hend. apply Hsegs in Hin as (w & ? & ? & ?). exists w. by simplify_eq.
Qed.
End keys_of_find_walls.

(** C9, as amended.  [cast_rays] succeeds when the [begins] and [ends] of
    every endpoint are keys of the wall dict; for an endpoint in range that
    passes the blocking-edge test it raises [KeyError] when one of them is
    not.  [find_endpoints] leaves a key in [begins] when the position is the
    first vertex of some wall, and in [ends] when it is the second vertex of
    some wall whose first vertex is another position; this is so for the
    four borders of a screen with nonzero extents together with closed
    obstacle outlines having two different points. *)
Theorem cast_rays_wall_lookups `{G : Geometry} (walls : list Wall.t)
    (origin : point) (max_range : num) :
  let keyed e :=
    has_key walls (Endpoint.begins e) ∧ has_key walls (Endpoint.ends e) in
  (∀ endpoints, Forall keyed endpoints →
     ∃ rays, Light.cast_rays walls endpoints origin max_range = Ok rays) ∧
  (∀ rays edge ed e,
     ¬ max_range < distance_2d origin (Endpoint.position e) →
     Light.not_blocked origin (Endpoint.position e) (Endpoint.begins e) edge ed
       = Ok true →
     ¬ keyed e →
     Light.cast_step walls origin max_range (rays, edge, ed) e = Raise KeyError) ∧
  (∀ count e, e ∈ Light.find_endpoints count walls →
     ((∃ w, w ∈ walls ∧ Wall.a w = Endpoint.position e) →
      has_key walls (Endpoint.begins e)) ∧
     ((∃ w, w ∈ walls ∧ Wall.b w = Endpoint.position e ∧
            Wall.a w ≠ Endpoint.position e) →
      has_key walls (Endpoint.ends e))) ∧
  (∀ wall_count endpoint_count obstacles endpoints,
     SCREEN_H ≠ 0 → SCREEN_W ≠ 0 →
     Forall two_distinct_points obstacles →
     Light.find_walls wall_count endpoint_count obstacles = Ok (walls, endpoints) →
     Forall keyed endpoints).
Proof.
  intros keyed. split_and!.
  - intros endpoints Hall. unfold Light.cast_rays.
    destruct (cast_loop_Ok walls origin max_range ([], None, None) endpoints)
      as [st ->]; [by intros [? ?]|done|]. bind_simpl. eauto.
  - intros rays edge ed e. apply cast_step_KeyError.
  - intros count e. apply find_endpoints_keys.
  - intros wall_count endpoint_count obstacles endpoints.
    apply find_walls_keys.
Qed.

Section empty_area.
Context `{G : Geometry}.

Lemma cast_loop_out_of_range walls origin max_range st endpoints :
  Forall (λ e, max_range < distance_2d origin (Endpoint.position e)) endpoints →
  Light.cast_loop walls origin max_range st endpoints = Ok st.
Proof.
  induction 1 as [|e endpoints He _ IH]; cbn [Light.cast_loop]; [done|].
  unfold Light.cast_step. destruct st as [[rays edge] ed].
  rewrite decide_True by done. by bind_simpl.
Qed.

End empty_area.

(** A replacement ray is examined in its turn and clipped again: the wall
    tried first is the farther one along the ray. *)
Example replacement_ray_clipped_again :
  @Light.resolve_loop Sample.G 4
    (@Light.sort_walls Sample.G (Exact.pt 0 0) Sample.two_walls) (Exact.pt 0 0)
    [Sample.long_ray] 0 [] =
  Some (Ok ([Sample.long_ray; Sample.clipped_once; Sample.clipped_twice],
            [Sample.long_ray; Sample.clipped_once])).
Proof. by_compute. Qed.


Lemma update_light_polygon_sorted_witness :
  ∃ L', @Light.update_light Sample.G 40 (Sample.built Sample.square_light)
          = Some (Ok L') ∧
        ∃ rays' col,
          Light.rays L' = (@Light.assemble Sample.G Sample.origin rays' col).1 ∧
          Light.light_polygon L'
            = (@Light.assemble Sample.G Sample.origin rays' col).2.
Proof.
  destruct (@Light.update_light Sample.G 40 (Sample.built Sample.square_light))
    as [[L'|e]|] eqn:Hup; [|exfalso..].
  - exists L'. split; [reflexivity|].
    destruct (proj2 (@update_light_polygon_sorted Sample.G Sample.origin)
      40%nat (Sample.built Sample.square_light) L')
      as (rays & rays' & col & _ & _ & Hrays & Hpoly).
    + apply (bool_decide_unpack _). vm_compute. reflexivity.
    + exact Hup.
    + exists rays', col. split; [exact Hrays|exact Hpoly].
  - revert Hup. vm_compute. discriminate.
  - revert Hup. vm_compute. discriminate.
Defined.

Lemma cast_rays_workaround_every_round_witness :
  ∃ rays,
    @Light.cast_rays Sample.G (Light.walls (Sample.built (Sample.empty_light 1500)))
      (@sorted_endpoints Sample.G (Sample.built (Sample.empty_light 1500)))
      Sample.origin (Z2num 1500) = Ok rays ∧
    bool_decide
      (2 ≤ length (filter (λ r, r = Light.workaround_ray Sample.origin) rays))%nat
      = true ∧
    ∃ cast blocks,
      rays = mjoin blocks ∧
      Forall2 (@ray_block Sample.G Sample.origin (Z2num 1500)) cast blocks.
Proof.
  assert (match @Light.cast_rays Sample.G
      (Light.walls (Sample.built (Sample.empty_light 1500)))
      (@sorted_endpoints Sample.G (Sample.built (Sample.empty_light 1500)))
      Sample.origin (Z2num 1500) with
    | Ok rays =>
        bool_decide (2 ≤ length
          (filter (λ r, r = Light.workaround_ray Sample.origin) rays))%nat
    | Raise _ => false
    end = true) as Hcount by (vm_compute; reflexivity).
  destruct (@Light.cast_rays Sample.G
      (Light.walls (Sample.built (Sample.empty_light 1500)))
      (@sorted_endpoints Sample.G (Sample.built (Sample.empty_light 1500)))
      Sample.origin (Z2num 1500)) as [rays|e] eqn:Hcast; [|discriminate Hcount].
  exists rays. split; [reflexivity|]. split; [exact Hcount|].
  destruct (@cast_rays_workaround_every_round Sample.G _ _ _ _ rays Hcast)
    as (cast & blocks & Hrays & _ & Hbl & _).
  exists cast, blocks. split; assumption.
Defined.

Lemma find_walls_count_witness :
  Forall (λ o, 2 ≤ length (points o))%nat [Sample.square] ∧
  ∃ walls endpoints,
    @Light.find_walls Sample.G 0 0 [Sample.square] = Ok (walls, endpoints) ∧
    length walls = 8%nat.
Proof.
  assert (Forall (λ o, 2 ≤ length (points o))%nat [Sample.square]) as Hobs.
  { constructor; [simpl; lia|constructor]. }
  split; [exact Hobs|].
  destruct (@find_walls_count Sample.G 0 0 [Sample.square] Hobs)
    as (walls & endpoints & Hfw & Hlen & _).
  exists walls, endpoints. split; [exact Hfw|]. rewrite Hlen. reflexivity.
Defined.

(** A single-point obstacle is accepted and yields a wall from the point to
    itself. *)
Lemma find_walls_single_point_wall :
  ∃ walls endpoints w,
    (length (points Sample.dot) < 2)%nat ∧
    @Light.find_walls Sample.G 0 0 [Sample.dot] = Ok (walls, endpoints) ∧
    w ∈ walls ∧ Wall.a w = Wall.b w.
Proof.
  eexists _, _, (Wall.Build 5 (Exact.pt 31 40) (Exact.pt 31 40)).
  split; [simpl; lia|]. split; [reflexivity|]. split; [|reflexivity].
  cbn. set_solver.
Qed.

Lemma find_walls_degenerate_obstacle_witness :
  Exists (λ o, points o = []) [Sample.square; {| points := [] |}] ∧
  @Light.find_walls Sample.G 0 0 [Sample.square; {| points := [] |}]
    = Raise IndexError.
Proof.
  assert (Exists (λ o, points o = []) [Sample.square; {| points := [] |}])
    as Hex by (right; by left).
  split; [exact Hex|].
  exact (proj1 (@find_walls_degenerate_obstacle Sample.G 0 0 _) Hex).
Defined.

(** With a single-point obstacle next to the light, every endpoint position
    is the first vertex of a wall and the second vertex of a wall, and the
    caster still fails on a lookup. *)
Lemma cast_rays_single_point_KeyError :
  ∃ L,
    @Light.init Sample.G 0 0 (Z2num 30) (Z2num 40) 0 [Sample.dot] (Z2num 1500)
      = Ok L ∧
    Forall (λ e, Exists (λ w, Wall.a w = Endpoint.position e) (Light.walls L) ∧
                 Exists (λ w, Wall.b w = Endpoint.position e) (Light.walls L))
      (Light.endpoints L) ∧
    @Light.cast_rays Sample.G (Light.walls L) (@sorted_endpoints Sample.G L)
      Sample.origin (Z2num 1500) = Raise KeyError ∧
    @Light.update Sample.G 1 L = Some (Raise KeyError).
Proof.
  eexists. split; [reflexivity|]. split; [by_compute|].
  split; vm_compute; reflexivity.
Qed.

Lemma cast_rays_wall_lookups_witness :
  let walls := Light.walls (Sample.built Sample.square_light) in
  let endpoints := Light.endpoints (Sample.built Sample.square_light) in
  Forall (λ e, has_key walls (Endpoint.begins e) ∧
               has_key walls (Endpoint.ends e)) endpoints ∧
  ∃ rays, @Light.cast_rays Sample.G walls endpoints Sample.origin (Z2num 1500)
            = Ok rays.
Proof.
  intros walls endpoints.
  assert (Forall (λ e, has_key walls (Endpoint.begins e) ∧
                       has_key walls (Endpoint.ends e)) endpoints) as Hkeys.
  { apply (proj2 (proj2 (proj2 (@cast_rays_wall_lookups Sample.G walls
      Sample.origin (Z2num 1500)))) 0%nat 0%nat [Sample.square]).
    - apply (bool_decide_unpack _). vm_compute. reflexivity.
    - apply (bool_decide_unpack _). vm_compute. reflexivity.
    - constructor; [|constructor].
      exists (Exact.pt 40 30), (Exact.pt 50 30).
      split; [cbn; set_solver|]. split; [cbn; set_solver|].
      apply (bool_decide_unpack _). vm_compute. reflexivity.
    - reflexivity. }
  split; [exact Hkeys|].
  exact (proj1 (@cast_rays_wall_lookups Sample.G walls Sample.origin
    (Z2num 1500)) endpoints Hkeys).
Defined.

(** * Further properties of the code *)

(** * More on the endpoint index *)

Lemma mark_all_marks walls eps :
  Light.mark_all walls eps = marks walls <$> eps.
Proof.
  revert eps. induction walls as [|w walls IH]; intros eps.
  - by rewrite list_fmap_id.
  - cbn [Light.mark_all fold_left]. unfold Light.mark_all in IH. rewrite IH.
    by rewrite <-list_fmap_compose.
Qed.

Lemma marks_snoc walls w e :
  marks (walls ++ [w]) e = Light.mark w (marks walls e).
Proof. unfold marks. by rewrite fold_left_app. Qed.

Lemma marks_position walls e :
  Endpoint.position (marks walls e) = Endpoint.position e.
Proof.
  induction walls as [|w walls IH] using rev_ind; [done|].
  by rewrite marks_snoc, mark_position.
Qed.

Lemma marks_last_wins walls e :
  Endpoint.begins (marks walls e) =
    match last (begun_at (Endpoint.position e) walls) with
    | Some w => Some (Wall.id w)
    | None => Endpoint.begins e
    end ∧
  Endpoint.ends (marks walls e) =
    match last (ended_at (Endpoint.position e) walls) with
    | Some w => Some (Wall.id w)
    | None => Endpoint.ends e
    end.
Proof.
  induction walls as [|w walls [IHb IHe]] using rev_ind; [done|].
  rewrite marks_snoc. unfold begun_at, ended_at in *. rewrite !filter_app.
  unfold Light.mark. rewrite marks_position.
  rewrite !filter_cons, !filter_nil.
  destruct (decide (Endpoint.position e = Wall.a w)) as [Ha|Ha].
  - rewrite (decide_True (P := Wall.a w = Endpoint.position e)) by done.
    rewrite decide_False by naive_solver.
    rewrite last_snoc, app_nil_r. cbn [Endpoint.begins Endpoint.ends]. done.
  - rewrite (decide_False (P := Wall.a w = Endpoint.position e)) by done.
    rewrite app_nil_r.
    destruct (decide (Endpoint.position e = Wall.b w)) as [Hb|Hb].
    + rewrite decide_True by done.
      rewrite last_snoc. cbn [Endpoint.begins Endpoint.ends]. done.
    + rewrite decide_False by naive_solver. by rewrite app_nil_r.
Qed.

Lemma collect_endpoints_fresh count visited endings :
  Forall (λ e, Endpoint.begins e = None ∧ Endpoint.ends e = None)
    (Light.collect_endpoints count visited endings).
Proof.
  revert count visited.
  induction endings as [|p rest IH]; intros count visited; simpl; [done|].
  case_decide; [apply IH|]. constructor; [done|apply IH].
Qed.

(** X2.  The [begins] of an endpoint is the id of the last wall that starts
    at its position, its [ends] the id of the last wall that ends there
    without starting there, and each is absent when there is no such
    wall. *)
Theorem find_endpoints_last_wall_wins (count : nat) (walls : list Wall.t)
    (e : Endpoint.t) :
  e ∈ Light.find_endpoints count walls →
  Endpoint.begins e =
    Wall.id <$> last (begun_at (Endpoint.position e) walls) ∧
  Endpoint.ends e =
    Wall.id <$> last (ended_at (Endpoint.position e) walls).
Proof.
  unfold Light.find_endpoints. rewrite mark_all_marks.
  intros (e0 & -> & He0)%list_elem_of_fmap.
  pose proof (collect_endpoints_fresh count [] (Light.endings walls)) as Hfresh.
  rewrite Forall_forall in Hfresh. destruct (Hfresh e0 He0) as [Hb He].
  destruct (marks_last_wins walls e0) as [-> ->].
  rewrite marks_position, Hb, He.
  by destruct (last (begun_at _ _)), (last (ended_at _ _)).
Qed.

Section positions_of_find_walls.
Context `{G : Geometry}.

Lemma endings_elem_of walls p :
  p ∈ Light.endings walls ↔
  ∃ a b, (a, b) ∈ Wall.line <$> walls ∧ (p = a ∨ p = b).
Proof.
  unfold Light.endings. rewrite list_elem_of_bind. split.
  - intros (w & Hp & Hw). exists (Wall.a w), (Wall.b w). split.
    + apply list_elem_of_fmap. by exists w.
    + set_solver.
  - intros (a & b & (w & Hl & Hw)%list_elem_of_fmap & Hp).
    unfold Wall.line in Hl. injection Hl as -> ->. exists w. set_solver.
Qed.

Lemma borders_corners p :
  (∃ a b, (a, b) ∈ Light.borders ∧ (p = a ∨ p = b)) ↔ p ∈ corners.
Proof.
  unfold Light.borders, Light.north_border, Light.east_border,
    Light.south_border, Light.west_border, corners.
  split.
  - intros (a & b & Hin & Hp). rewrite !elem_of_cons in Hin.
    destruct Hin as [Hs|[Hs|[Hs|[Hs|Hs]]]]; [..|by inv Hs];
      injection Hs as -> ->; destruct Hp as [-> | ->]; set_solver.
  - rewrite !elem_of_cons. intros [->|[->|[->|[->|Hp]]]]; [..|by inv Hp].
    + exists (SCREEN_H, 0), (SCREEN_H, SCREEN_W). set_solver.
    + exists (SCREEN_H, SCREEN_W), (0, SCREEN_W). set_solver.
    + exists (0, SCREEN_W), (0, 0). set_solver.
    + exists (0, 0), (SCREEN_H, 0). set_solver.
Qed.

(** [find_walls] read backwards. *)
Lemma find_walls_Ok wall_count endpoint_count obstacles walls endpoints :
  Light.find_walls wall_count endpoint_count obstacles = Ok (walls, endpoints) →
  Forall (λ o, points o ≠ []) obstacles ∧
  walls = Light.make_walls wall_count
            (Light.borders ++ (o ← obstacles; polygon_edges (points o))) ∧
  endpoints = Light.find_endpoints endpoint_count walls.
Proof.
  intros Hfw.
  assert (Forall (λ o, points o ≠ []) obstacles) as Hne.
  { apply Forall_forall. intros o Ho Hnil. unfold Light.find_walls in Hfw.
    rewrite obstacles_walls_empty in Hfw; [done|].
    apply Exists_exists. eauto. }
  split; [done|]. unfold Light.find_walls in Hfw.
  rewrite obstacles_walls_nonempty in Hfw by done.
  by injection Hfw as <- <-.
Qed.

End positions_of_find_walls.

(** X1.  The endpoints of a light are at the four corners of the screen and
    at the boundary points of the obstacles, and nowhere else. *)
Theorem find_walls_endpoint_positions `{G : Geometry}
    (wall_count endpoint_count : nat) (obstacles : list Obstacle)
    (walls : list Wall.t) (endpoints : list Endpoint.t) (p : point) :
  Light.find_walls wall_count endpoint_count obstacles = Ok (walls, endpoints) →
  (p ∈ Endpoint.position <$> endpoints ↔
   p ∈ corners ∨ ∃ o, o ∈ obstacles ∧ p ∈ points o).
Proof.
  intros (Hne & -> & ->)%find_walls_Ok.
  rewrite find_endpoints_positions, endings_elem_of, make_walls_line.
  rewrite <-borders_corners. split.
  - intros (a & b & [Hin|Hin]%elem_of_app & Hp); [left; eauto|right].
    apply list_elem_of_bind in Hin as (o & Hin & Ho).
    apply polygon_edges_elem_of in Hin as [Ha Hb].
    exists o. split; [done|]. by destruct Hp as [-> | ->].
  - intros [(a & b & Hin & Hp)|(o & Ho & Hp)].
    + exists a, b. split; [|done]. apply elem_of_app. by left.
    + destruct (polygon_edges_starts _ _ Hp) as [b Hb].
      exists p, b. split; [|by left]. apply elem_of_app. right.
      apply list_elem_of_bind. eauto.
Qed.

(** * More on the ray caster *)
Section caster_more.
Context `{G : Geometry}.

Lemma not_blocked_exn origin position begins edge ed x :
  (is_Some edge → is_Some ed) →
  Light.not_blocked origin position begins edge ed ≠ Raise x.
Proof.
  intros Htr.
  destruct (not_blocked_Ok origin position begins edge ed Htr) as [go ->].
  done.
Qed.

Lemma cast_step_tracked walls origin max_range st e st' :
  edge_tracked st →
  Light.cast_step walls origin max_range st e = Ok st' → edge_tracked st'.
Proof.
  destruct st as [[rays edge] ed]. unfold edge_tracked. cbn [fst snd].
  intros Htr. unfold Light.cast_step.
  case_decide; [by intros [= <-]|].
  destruct (Light.not_blocked _ _ _ _ _) as [[]|]; bind_simpl;
    [|by intros [= <-]|done].
  destruct (Light.lookup_wall walls (Endpoint.ends e)) as [we|]; bind_simpl;
    [|done].
  destruct (decide (_ < _));
    (destruct (Light.lookup_wall walls (Endpoint.begins e)) as [wb|];
     bind_simpl; [|done]);
    (destruct (Light.offset_rays _ _ _ _ _ _ _) as [oa ob]);
    intros [= <-]; cbn [fst snd]; [eauto|by intros [? ?]].
Qed.

Lemma cast_step_Raise walls origin max_range st e x :
  edge_tracked st →
  Light.cast_step walls origin max_range st e = Raise x →
  x = KeyError ∧ ¬ out_of_range origin max_range e ∧
  ¬ (has_key walls (Endpoint.begins e) ∧ has_key walls (Endpoint.ends e)).
Proof.
  intros Htr Hstep. split_and!.
  - destruct st as [[rays edge] ed]. unfold edge_tracked in Htr.
    cbn [fst snd] in Htr. unfold Light.cast_step in Hstep.
    case_decide; [done|].
    destruct (Light.not_blocked _ _ _ _ _) as [[]|] eqn:Hnb; bind_simpl;
      [|done|by apply not_blocked_exn in Hnb].
    revert Hstep.
    destruct (Light.lookup_wall walls (Endpoint.ends e)) as [we|] eqn:He;
      bind_simpl; [|intros [= <-]; by apply lookup_wall_exn in He].
    destruct (decide (_ < _));
      (destruct (Light.lookup_wall walls (Endpoint.begins e)) as [wb|] eqn:Hb;
       bind_simpl; [|intros [= <-]; by apply lookup_wall_exn in Hb]);
      by destruct (Light.offset_rays _ _ _ _ _ _ _).
  - intros Hout. destruct st as [[rays edge] ed].
    unfold Light.cast_step, out_of_range in *. by rewrite decide_True in Hstep.
  - intros [Hb He].
    destruct (cast_step_Ok walls origin max_range st e Htr Hb He)
      as (st' & Hok & _). congruence.
Qed.

Lemma cast_loop_Raise walls origin max_range st endpoints x :
  edge_tracked st →
  Light.cast_loop walls origin max_range st endpoints = Raise x →
  x = KeyError ∧
  Exists (λ e, ¬ out_of_range origin max_range e ∧
               ¬ (has_key walls (Endpoint.begins e) ∧
                  has_key walls (Endpoint.ends e))) endpoints.
Proof.
  revert st. induction endpoints as [|e endpoints IH]; intros st Htr;
    cbn [Light.cast_loop]; [done|].
  destruct (Light.cast_step walls origin max_range st e) as [st'|x'] eqn:Hstep;
    bind_simpl.
  - intros Hloop. apply IH in Hloop as [-> Hex];
      [|by eapply cast_step_tracked]. split; [done|by right].
  - intros [= ->]. apply cast_step_Raise in Hstep as (-> & ? & ?); [|done].
    split; [done|by left].
Qed.

Lemma ray_block_shape origin max_range e block :
  ray_block origin max_range e block →
  (length block ≤ 4)%nat ∧
  Forall (λ r, is_ray4 r ∧ ray_0 r = origin) block ∧
  block ≠ [].
Proof.
  intros (offsets & -> & Hlen & Hoff). split_and!; [|constructor|done].
  - cbn [length]. rewrite length_app. cbn [length]. lia.
  - done.
  - apply Forall_app. split; [|by repeat constructor].
    eapply Forall_impl; [exact Hoff|]. by intros r (a & _ & ->).
Qed.

Lemma blocks_shape origin max_range cast blocks :
  Forall2 (ray_block origin max_range) cast blocks →
  (length (mjoin blocks) ≤ 4 * length cast)%nat ∧
  Forall (λ r, is_ray4 r ∧ ray_0 r = origin) (mjoin blocks) ∧
  (cast ≠ [] → mjoin blocks ≠ []).
Proof.
  induction 1 as [|e block cast blocks Hb _ (IH1 & IH2 & _)]; [done|].
  apply ray_block_shape in Hb as (Hlen & Hall & Hne).
  change (mjoin (block :: blocks)) with (block ++ mjoin blocks).
  split_and!.
  - rewrite length_app. cbn [length]. lia.
  - by apply Forall_app.
  - intros _. by destruct block.
Qed.

(** With no edge tracked, an endpoint in range gets its block. *)
Lemma cast_step_no_edge walls origin max_range rays ed e rays' edge' ed' :
  Forall is_ray4 rays →
  ¬ out_of_range origin max_range e →
  Light.cast_step walls origin max_range (rays, None, ed) e
    = Ok (rays', edge', ed') →
  ∃ block, ray_block origin max_range e block ∧ rays' = rays ++ block.
Proof.
  intros Hall Hin. unfold Light.cast_step, out_of_range in *.
  rewrite decide_False by done.
  change (Light.not_blocked _ _ _ None _) with (Ok true). bind_simpl.
  destruct (Light.lookup_wall walls (Endpoint.ends e)) as [we|]; bind_simpl;
    [|done].
  destruct (decide (_ < _)) as [Hangle|Hangle];
    (destruct (Light.lookup_wall walls (Endpoint.begins e)) as [wb|];
     bind_simpl; [|done]);
    (destruct (Light.offset_rays _ _ _ _ _ _ _) as [oa ob] eqn:Ho);
    apply offset_rays_cases in Ho as [Ha Hb];
    rewrite !append_offset_app;
    (rewrite (decide_False (P := Ray2 _ _ ∈ _));
     [|apply not_ray2_in; rewrite !Forall_app; split_and!;
       [done|by repeat constructor|apply offset_list_ray4..]]);
    intros [= <- <- <-];
    (eexists; split; [by apply offset_lists_block|]);
    by rewrite <-!(assoc_L (++)).
Qed.

(** The first endpoint in range gets a primary ray when its lookups
    succeed. *)
Lemma cast_loop_first_in_range walls origin max_range endpoints rays' edge' ed' :
  Light.cast_loop walls origin max_range ([], None, None) endpoints
    = Ok (rays', edge', ed') →
  Exists (λ e, ¬ out_of_range origin max_range e) endpoints →
  rays' ≠ [].
Proof.
  induction endpoints as [|e endpoints IH]; [by intros _ Hex; inv Hex|].
  cbn [Light.cast_loop].
  destruct (Light.cast_step walls origin max_range ([], None, None) e)
    as [[[rays1 edge1] ed1]|] eqn:Hstep; bind_simpl; [|done].
  intros Hloop Hex.
  destruct (decide (out_of_range origin max_range e)) as [Hout|Hin].
  - unfold Light.cast_step in Hstep. unfold out_of_range in Hout.
    rewrite decide_True in Hstep by done. injection Hstep as <- <- <-.
    apply IH; [done|]. by apply Exists_cons in Hex as [?|?].
  - apply cast_step_no_edge in Hstep as (block & Hb & ->); [|done..].
    apply cast_loop_blocks in Hloop as (cast & blocks & -> & _).
    + apply ray_block_shape in Hb as (_ & _ & Hne). by destruct block.
    + rewrite app_nil_l. by eapply ray_block_ray4.
Qed.

End caster_more.

(** X3.  The only exception of [cast_rays] is [KeyError], and it comes from
    an endpoint in range whose [begins] or [ends] is not a key. *)
Theorem cast_rays_only_KeyError `{G : Geometry} (walls : list Wall.t)
    (endpoints : list Endpoint.t) (origin : point) (max_range : num) (x : exn) :
  Light.cast_rays walls endpoints origin max_range = Raise x →
  x = KeyError ∧
  Exists (λ e, ¬ out_of_range origin max_range e ∧
               ¬ (has_key walls (Endpoint.begins e) ∧
                  has_key walls (Endpoint.ends e))) endpoints.
Proof.
  unfold Light.cast_rays.
  destruct (Light.cast_loop _ _ _ _ _) as [st|x'] eqn:Hloop; bind_simpl; [done|].
  intros [= ->]. apply cast_loop_Raise in Hloop; [done|]. by intros [? ?].
Qed.

(** X4.  [cast_rays] returns 4-tuples that all start at the origin, at most
    four per endpoint. *)
Theorem cast_rays_shape `{G : Geometry} (walls : list Wall.t)
    (endpoints : list Endpoint.t) (origin : point) (max_range : num)
    (rays : list ray) :
  Light.cast_rays walls endpoints origin max_range = Ok rays →
  (length rays ≤ 4 * length endpoints)%nat ∧
  Forall (λ r, is_ray4 r ∧ ray_0 r = origin) rays.
Proof.
  unfold Light.cast_rays.
  destruct (Light.cast_loop _ _ _ _ _) as [[[rays' edge] ed]|] eqn:Hloop;
    bind_simpl; [|done].
  intros [= <-]. cbn [fst].
  apply cast_loop_blocks in Hloop as (cast & blocks & -> & Hsub & Hbl & _);
    [|done].
  rewrite app_nil_l. apply blocks_shape in Hbl as (Hlen & Hall & _).
  apply sublist_length in Hsub. split; [lia|done].
Qed.

(** X5.  [cast_rays] returns no ray exactly when every endpoint is out of
    range. *)
Theorem cast_rays_empty_iff `{G : Geometry} (walls : list Wall.t)
    (endpoints : list Endpoint.t) (origin : point) (max_range : num)
    (rays : list ray) :
  Light.cast_rays walls endpoints origin max_range = Ok rays →
  (rays = [] ↔ Forall (out_of_range origin max_range) endpoints).
Proof.
  unfold Light.cast_rays.
  destruct (Light.cast_loop _ _ _ _ _) as [[[rays' edge] ed]|] eqn:Hloop;
    bind_simpl; [|done].
  intros [= <-]. cbn [fst]. split.
  - intros ->. apply Forall_forall. intros e He.
    destruct (decide (out_of_range origin max_range e)) as [|Hin]; [done|].
    destruct (cast_loop_first_in_range _ _ _ _ _ _ _ Hloop); [|done].
    apply Exists_exists. eauto.
  - intros Hall. rewrite cast_loop_out_of_range in Hloop by done.
    by injection Hloop as <-.
Qed.

(** * More on sorting *)
Section sort_more.
Context {A : Type} (key : A → num).

Lemma sort_by_sorted_id l :
  StronglySorted (key_le key) l → sort_by key l = l.
Proof.
  induction 1 as [|x l Hl IH Hx]; [done|].
  cbn [sort_by]. rewrite IH. destruct l as [|y l]; [done|].
  cbn [insert_by]. rewrite decide_False; [done|].
  apply Forall_cons in Hx as [Hxy _]. unfold key_le in Hxy.
  by apply Qcle_not_lt.
Qed.

Lemma sort_by_idempotent l : sort_by key (sort_by key l) = sort_by key l.
Proof. apply sort_by_sorted_id, sort_by_sorted. Qed.

End sort_more.

(** * More on the resolver *)
Section resolver_more.
Context `{G : Geometry}.

Lemma get_intersection_exn p1 p2 p3 p4 e :
  Light.get_intersection p1 p2 p3 p4 = Raise e → e = ZeroDivisionError.
Proof.
  unfold Light.get_intersection. cbv zeta. case_decide; [|done].
  by intros [= <-].
Qed.

Lemma resolve_loop_exn fuel walls origin rays i col e :
  Light.resolve_loop fuel walls origin rays i col = Some (Raise e) →
  e = ZeroDivisionError.
Proof.
  revert rays i col. induction fuel as [|fuel IH]; intros rays i col; [done|].
  simpl. destruct (rays !! i) as [r|]; [|done].
  destruct (Light.colliding_wall walls r) as [[w1 w2]|]; [|apply IH].
  destruct (Light.get_intersection _ _ _ _) as [p|e'] eqn:Hp; [apply IH|].
  intros [= <-]. by eapply get_intersection_exn.
Qed.

(** The working list grows by one 2-tuple from the origin per colliding
    ray, each ending at the intersection with the wall of that ray. *)
Lemma resolve_loop_appended fuel walls origin rays i col rays' col' :
  Light.resolve_loop fuel walls origin rays i col = Some (Ok (rays', col')) →
  ∃ found news,
    col' = col ++ found ∧ rays' = rays ++ news ∧
    Forall2 (λ c n, ∃ w1 w2 p,
               Light.colliding_wall walls c = Some (w1, w2) ∧
               Light.get_intersection (ray_0 c) (ray_1 c) w1 w2 = Ok p ∧
               n = Ray2 origin p) found news.
Proof.
  revert rays i col. induction fuel as [|fuel IH]; intros rays i col; [done|].
  simpl. destruct (rays !! i) as [r|] eqn:Hr.
  - destruct (Light.colliding_wall walls r) as [[w1 w2]|] eqn:Hc; [|apply IH].
    destruct (Light.get_intersection _ _ _ _) as [p|] eqn:Hp; [|done].
    intros Hrun. apply IH in Hrun as (found & news & -> & -> & Hall).
    exists (r :: found), (Ray2 origin p :: news).
    rewrite <-!(assoc_L (++)). split_and!; [done..|].
    constructor; [|done]. by exists w1, w2, p.
  - intros [= <- <-]. exists [], []. by rewrite !app_nil_r.
Qed.

(** A ray found colliding is never the last of the working list. *)
Lemma resolve_loop_not_last fuel walls origin rays i col rays' col' :
  Light.resolve_loop fuel walls origin rays i col = Some (Ok (rays', col')) →
  ∀ j r, (i ≤ j)%nat → rays' !! j = Some r →
    is_Some (Light.colliding_wall walls r) → (S j < length rays')%nat.
Proof.
  revert rays i col. induction fuel as [|fuel IH]; intros rays i col; [done|].
  simpl. destruct (rays !! i) as [r|] eqn:Hr.
  - destruct (Light.colliding_wall walls r) as [[w1 w2]|] eqn:Hc.
    + destruct (Light.get_intersection _ _ _ _) as [p|] eqn:Hp; [|done].
      intros Hrun j r' Hj Hr' Hc'.
      destruct (decide (j = i)) as [->|]; [|by apply (IH _ _ _ Hrun j r'); [lia|..]].
      apply resolve_loop_inv in Hrun as (Hpre & _).
      apply prefix_length in Hpre. rewrite length_app in Hpre. simpl in Hpre.
      apply lookup_lt_Some in Hr. lia.
    + intros Hrun j r' Hj Hr' Hc'.
      destruct (decide (j = i)) as [->|]; [|by apply (IH _ _ _ Hrun j r'); [lia|..]].
      apply resolve_loop_inv in Hrun as (Hpre & _).
      rewrite (prefix_lookup_Some _ _ _ _ Hr Hpre) in Hr'. injection Hr' as <-.
      rewrite Hc in Hc'. by destruct Hc'.
  - intros [= <- <-] j r' Hj Hr'. apply lookup_lt_Some in Hr'.
    apply lookup_ge_None in Hr. lia.
Qed.

(** What is left in the final ray list. *)
Lemma assemble_elem_of origin rays col r :
  r ∈ (Light.assemble origin rays col).1 ↔ r ∈ rays ∧ r ∉ col.
Proof.
  unfold Light.assemble. cbn [fst].
  rewrite sort_by_perm, list_elem_of_filter. tauto.
Qed.

Lemma assemble_nil origin rays col :
  (Light.assemble origin rays col).2 = [] ↔
  (Light.assemble origin rays col).1 = [].
Proof.
  unfold Light.assemble. cbn [fst snd]. split; [|by intros ->].
  apply fmap_nil_inv.
Qed.

(** After a finished run the final list is empty only if the working list
    is. *)
Lemma resolve_loop_final_nonempty fuel walls origin rays rays' col :
  Light.resolve_loop fuel walls origin rays 0 [] = Some (Ok (rays', col)) →
  (Light.assemble origin rays' col).1 = [] → rays' = [].
Proof.
  intros Hrun Hnil.
  destruct (last rays') as [r|] eqn:Hlast; [|by apply last_None].
  exfalso. rewrite last_lookup in Hlast.
  assert (r ∈ rays') as Hin by (apply list_elem_of_lookup; eauto).
  assert (r ∉ col) as Hcol.
  { intros Hcol.
    apply resolve_loop_inv in Hrun as Hinv. destruct Hinv as (_ & _ & Hall & _).
    specialize (Hall (Forall_nil_2 _)). rewrite Forall_forall in Hall.
    pose proof (resolve_loop_not_last _ _ _ _ _ _ _ _ Hrun _ r
      ltac:(lia) Hlast (Hall r Hcol)) as Hlt.
    apply lookup_lt_Some in Hlast. lia. }
  assert (r ∈ (Light.assemble origin rays' col).1) as Hfin
    by (by apply assemble_elem_of).
  rewrite Hnil in Hfin. by inv Hfin.
Qed.

End resolver_more.

(** * The whole update *)
Section update_more.
Context `{G : Geometry}.

(** [update_light] read backwards: what a successful call went through. *)
Lemma update_light_Ok fuel L L' :
  Light.update_light fuel L = Some (Ok L') →
  ∃ rays rays' col,
    Light.cast_rays (Light.walls L) (sorted_endpoints L)
      (Light.x L, Light.y L) (Light.power L) = Ok rays ∧
    Light.resolve_loop fuel
      (Light.sort_walls (Light.x L, Light.y L) (Light.walls L))
      (Light.x L, Light.y L) rays 0 [] = Some (Ok (rays', col)) ∧
    L' = Light.Build (Light.x L) (Light.y L) (Light.h L) (Light.power L)
           (Light.obstacles L) (sorted_endpoints L) (Light.walls L)
           (Light.assemble (Light.x L, Light.y L) rays' col).1
           (Light.assemble (Light.x L, Light.y L) rays' col).2.
Proof.
  unfold Light.update_light, Light.resolve. fold (sorted_endpoints L).
  destruct (Light.cast_rays _ _ _ _) as [rays|]; [|done].
  destruct (Light.resolve_loop _ _ _ _ _ _) as [[[rays' col]|]|] eqn:Hrun;
    [|done..].
  destruct (Light.assemble _ _ _) as [rays_ polygon] eqn:Ha.
  intros [= <-]. exists rays, rays', col. by rewrite Ha.
Qed.

End update_more.

(** X6.  A second update changes nothing; an update keeps the position, the
    power, the obstacles and the walls, and only reorders the endpoints. *)
Theorem update_light_idempotent `{G : Geometry} (fuel : nat) (L L' : Light.t) :
  Light.update_light fuel L = Some (Ok L') →
  Light.update_light fuel L' = Some (Ok L') ∧
  (Light.x L', Light.y L', Light.h L', Light.power L') =
    (Light.x L, Light.y L, Light.h L, Light.power L) ∧
  Light.obstacles L' = Light.obstacles L ∧
  Light.walls L' = Light.walls L ∧
  Light.endpoints L' ≡ₚ Light.endpoints L.
Proof.
  intros Hup. pose proof Hup as (rays & rays' & col & _ & _ & ->)%update_light_Ok.
  cbn [Light.x Light.y Light.h Light.power Light.obstacles Light.walls
       Light.endpoints].
  split_and!; [|done..|apply sort_by_perm].
  rewrite <-Hup. unfold Light.update_light.
  cbn [Light.x Light.y Light.h Light.power Light.obstacles Light.walls
       Light.endpoints].
  unfold sorted_endpoints. by rewrite sort_by_idempotent.
Qed.

Lemma filter_ext_elem_of {A} (P Q : A → Prop) `{!∀ x, Decision (P x)}
    `{!∀ x, Decision (Q x)} (l : list A) :
  (∀ x, x ∈ l → P x ↔ Q x) → filter P l = filter Q l.
Proof.
  induction l as [|x l IH]; intros Hext; [done|].
  rewrite !filter_cons, IH by (intros y Hy; apply Hext; by right).
  destruct (Hext x) as [H1 H2]; [by left|].
  repeat case_decide; tauto || done.
Qed.

Section resolver_count.
Context `{G : Geometry}.

(** The colliding rays are the rays of the working list that have a
    colliding wall, in the order of the list. *)
Lemma resolve_loop_colliding fuel walls origin rays i col rays' col' :
  Light.resolve_loop fuel walls origin rays i col = Some (Ok (rays', col')) →
  col' = col ++ filter (λ r, is_Some (Light.colliding_wall walls r))
                  (drop i rays').
Proof.
  revert rays i col. induction fuel as [|fuel IH]; intros rays i col; [done|].
  cbn [Light.resolve_loop]. destruct (rays !! i) as [r|] eqn:Hr.
  - destruct (Light.colliding_wall walls r) as [[w1 w2]|] eqn:Hc.
    + destruct (Light.get_intersection _ _ _ _) as [p|] eqn:Hp; [|done].
      intros Hrun. pose proof Hrun as (Hpre & _)%resolve_loop_inv.
      apply IH in Hrun as ->.
      assert (rays' !! i = Some r) as Hi.
      { eapply prefix_lookup_Some; [|exact Hpre].
        apply lookup_app_l_Some. done. }
      rewrite (drop_S _ _ _ Hi), filter_cons, decide_True by (by rewrite Hc).
      by rewrite <-(assoc_L (++)).
    + intros Hrun. pose proof Hrun as (Hpre & _)%resolve_loop_inv.
      apply IH in Hrun as ->.
      assert (rays' !! i = Some r) as Hi
        by (by eapply prefix_lookup_Some).
      rewrite (drop_S _ _ _ Hi), filter_cons, decide_False; [done|].
      rewrite Hc. by intros [? ?].
  - intros [= <- <-]. apply lookup_ge_None in Hr.
    by rewrite drop_ge, app_nil_r.
Qed.

(** A finished run leaves as many rays in the final list as it began
    with: each colliding ray is replaced by one ray. *)
Lemma resolve_loop_final_length fuel walls origin rays rays' col :
  Light.resolve_loop fuel walls origin rays 0 [] = Some (Ok (rays', col)) →
  length (Light.assemble origin rays' col).1 = length rays.
Proof.
  intros Hrun. unfold Light.assemble. cbn [fst].
  rewrite sort_by_perm.
  pose proof (resolve_loop_length _ _ _ _ _ _ _ _ Hrun) as Hlen.
  pose proof (resolve_loop_colliding _ _ _ _ _ _ _ _ Hrun) as Hcol.
  rewrite drop_0, app_nil_l in Hcol.
  assert (filter (λ r, r ∉ col) rays' =
          filter (λ r, ¬ is_Some (Light.colliding_wall walls r)) rays') as ->.
  { apply filter_ext_elem_of. intros r Hr.
    rewrite Hcol, list_elem_of_filter. tauto. }
  pose proof (filter_app_complement
    (λ r, is_Some (Light.colliding_wall walls r)) rays') as Hperm.
  apply Permutation_length in Hperm. rewrite length_app, <-Hcol in Hperm.
  cbn [length] in Hlen. lia.
Qed.

(** An exception of the loop is the one [get_intersection] raised for a
    ray and the wall picked for it. *)
Lemma resolve_loop_Raise fuel walls origin rays i col e :
  Light.resolve_loop fuel walls origin rays i col = Some (Raise e) →
  ∃ c w, w ∈ walls ∧ Light.collides c w ∧
    Light.get_intersection (ray_0 c) (ray_1 c) (Wall.a w) (Wall.b w) = Raise e.
Proof.
  revert rays i col. induction fuel as [|fuel IH]; intros rays i col; [done|].
  cbn [Light.resolve_loop]. destruct (rays !! i) as [r|]; [|done].
  destruct (Light.colliding_wall walls r) as [[w1 w2]|] eqn:Hc; [|apply IH].
  destruct (Light.get_intersection _ _ _ _) as [p|e'] eqn:Hp; [apply IH|].
  intros [= <-].
  apply colliding_wall_Some in Hc as (pre & w & post & -> & _ & Hcol & Hl).
  injection Hl as -> ->. exists r, w. split_and!; [set_solver|done..].
Qed.

End resolver_count.

(** X7.  After a successful update the final list has exactly as many rays
    as [cast_rays] returned and the polygon one vertex per final ray; every
    final ray starts at the light and is either one of the rays [cast_rays]
    returned or the stump of a clipped ray. *)
Theorem update_light_rays_from_light `{G : Geometry} (fuel : nat)
    (L L' : Light.t) :
  Light.update_light fuel L = Some (Ok L') →
  ∃ rays,
    Light.cast_rays (Light.walls L) (sorted_endpoints L)
      (Light.x L, Light.y L) (Light.power L) = Ok rays ∧
    length (Light.rays L') = length rays ∧
    length (Light.light_polygon L') = length (Light.rays L') ∧
    ∀ r, r ∈ Light.rays L' →
      ray_0 r = (Light.x L, Light.y L) ∧
      (r ∈ rays ∨
       ∃ c w p, w ∈ Light.walls L ∧ Light.collides c w ∧
         Light.get_intersection (ray_0 c) (ray_1 c) (Wall.a w) (Wall.b w)
           = Ok p ∧
         r = Ray2 (Light.x L, Light.y L) p).
Proof.
  intros (rays & rays' & col & Hcast & Hrun & ->)%update_light_Ok.
  exists rays. cbn [Light.rays Light.light_polygon].
  split_and!; [done|by eapply resolve_loop_final_length| |].
  { unfold Light.assemble. cbn [fst snd]. by rewrite length_fmap. }
  intros r [Hr _]%assemble_elem_of.
  apply resolve_loop_appended in Hrun as (found & news & _ & -> & Hnews).
  apply elem_of_app in Hr as [Hr|Hr].
  - split; [|by left]. unfold Light.cast_rays in Hcast.
    destruct (Light.cast_loop _ _ _ _ _) as [[[rays0 edge] ed]|] eqn:Hloop;
      [|done].
    injection Hcast as <-. cbn [fst] in Hr.
    apply cast_loop_blocks in Hloop as (cast & blocks & -> & _ & Hbl & _);
      [|done].
    rewrite app_nil_l in Hr. apply blocks_shape in Hbl as (_ & Hall & _).
    rewrite Forall_forall in Hall. by destruct (Hall r Hr).
  - apply list_elem_of_lookup in Hr as [j Hj].
    destruct (Forall2_lookup_r _ _ _ _ _ Hnews Hj)
      as (c & _ & w1 & w2 & p & Hc & Hp & ->).
    split; [done|]. right.
    apply colliding_wall_Some in Hc as (pre & w & post & Hw & _ & Hcol & Hl).
    injection Hl as -> ->. exists c, w, p. split_and!; [|done..].
    rewrite <-(sort_by_perm
      (λ w, distance_2d (centroid (Wall.line w)) (Light.x L, Light.y L))
      (Light.walls L)).
    unfold Light.sort_walls in Hw. rewrite Hw. set_solver.
Qed.

(** X8.  No ray of the final list crosses a wall other than its generating
    walls. *)
Theorem update_light_rays_unobstructed `{G : Geometry} (fuel : nat)
    (L L' : Light.t) :
  Light.update_light fuel L = Some (Ok L') →
  ∀ r w, r ∈ Light.rays L' → w ∈ Light.walls L → ¬ Light.collides r w.
Proof.
  intros (rays & rays' & col & _ & Hrun & ->)%update_light_Ok r w.
  cbn [Light.rays]. intros [Hr Hcol]%assemble_elem_of Hw.
  apply resolve_loop_inv in Hrun as (_ & _ & _ & Hfrom).
  apply list_elem_of_lookup in Hr as [j Hj].
  destruct (Light.colliding_wall
    (Light.sort_walls (Light.x L, Light.y L) (Light.walls L)) r)
    as [[w1 w2]|] eqn:Hc.
  - by destruct (Hfrom j r w1 w2 ltac:(lia) Hj Hc).
  - apply colliding_wall_None in Hc. rewrite Forall_forall in Hc. apply Hc.
    unfold Light.sort_walls. by rewrite sort_by_perm.
Qed.

(** X9.  The polygon is empty exactly when every endpoint is out of the
    light's range. *)
Theorem update_light_polygon_empty_iff `{G : Geometry} (fuel : nat)
    (L L' : Light.t) :
  Light.update_light fuel L = Some (Ok L') →
  (Light.light_polygon L' = [] ↔
   Forall (out_of_range (Light.x L, Light.y L) (Light.power L))
     (Light.endpoints L)).
Proof.
  intros (rays & rays' & col & Hcast & Hrun & ->)%update_light_Ok.
  cbn [Light.light_polygon]. rewrite assemble_nil.
  assert (rays = [] ↔
          Forall (out_of_range (Light.x L, Light.y L) (Light.power L))
            (Light.endpoints L)) as <-.
  { unfold Light.cast_rays in Hcast.
    destruct (Light.cast_loop _ _ _ _ _) as [[[rays0 edge] ed]|] eqn:Hloop;
      [|done].
    injection Hcast as <-. cbn [fst].
    rewrite <-(sort_by_perm
      (λ e_, calculate_angle (Light.x L, Light.y L) (Endpoint.position e_))
      (Light.endpoints L)).
    fold (sorted_endpoints L). split.
    - intros ->. apply Forall_forall. intros e He.
      destruct (decide (out_of_range (Light.x L, Light.y L) (Light.power L) e))
        as [|Hin]; [done|].
      destruct (cast_loop_first_in_range _ _ _ _ _ _ _ Hloop); [|done].
      apply Exists_exists. eauto.
    - intros Hall. rewrite cast_loop_out_of_range in Hloop by done.
      by injection Hloop as <-. }
  split.
  - intros Hnil.
    apply (resolve_loop_final_nonempty _ _ _ _ _ _ Hrun) in Hnil.
    apply resolve_loop_inv in Hrun as (Hpre & _). rewrite Hnil in Hpre.
    by apply prefix_nil_inv in Hpre.
  - intros ->. destruct fuel as [|fuel]; [done|]. simpl in Hrun.
    by injection Hrun as <- <-.
Qed.

(** X10.  [update_light] raises nothing but [KeyError] and
    [ZeroDivisionError]: a [KeyError] is the one [cast_rays] raised, for an
    endpoint in range whose [begins] or [ends] is not a key; a
    [ZeroDivisionError] is the one [get_intersection] raised for a ray and
    a wall of the light it collides with, after [cast_rays] returned. *)
Theorem update_light_exceptions `{G : Geometry} (fuel : nat) (L : Light.t)
    (x : exn) :
  Light.update_light fuel L = Some (Raise x) →
  let origin := (Light.x L, Light.y L) in
  let cast := Light.cast_rays (Light.walls L) (sorted_endpoints L) origin
                (Light.power L) in
  (x = KeyError ∧ cast = Raise KeyError ∧
   Exists (λ e, ¬ out_of_range origin (Light.power L) e ∧
                ¬ (has_key (Light.walls L) (Endpoint.begins e) ∧
                   has_key (Light.walls L) (Endpoint.ends e)))
     (Light.endpoints L)) ∨
  (x = ZeroDivisionError ∧
   ∃ rays c w, cast = Ok rays ∧ w ∈ Light.walls L ∧ Light.collides c w ∧
     Light.get_intersection (ray_0 c) (ray_1 c) (Wall.a w) (Wall.b w)
       = Raise ZeroDivisionError).
Proof.
  intros Hup origin cast. revert Hup.
  unfold Light.update_light, Light.resolve. fold (sorted_endpoints L).
  fold origin. fold cast.
  destruct cast as [rays|x'] eqn:Hcast.
  - destruct (Light.resolve_loop _ _ _ _ _ _) as [[[rays' col]|x']|] eqn:Hrun;
      [by destruct (Light.assemble _ _ _)| |done].
    intros [= ->]. right.
    apply resolve_loop_Raise in Hrun as (c & w & Hw & Hcol & Hp).
    pose proof (get_intersection_exn _ _ _ _ _ Hp) as ->.
    split; [done|]. exists rays, c, w. split_and!; [done| |done..].
    unfold Light.sort_walls in Hw. by rewrite sort_by_perm in Hw.
  - intros [= ->]. left. unfold cast, Light.cast_rays in Hcast.
    destruct (Light.cast_loop _ _ _ _ _) as [st|x'] eqn:Hloop; [done|].
    injection Hcast as ->.
    apply cast_loop_Raise in Hloop as [-> Hex]; [|by intros [? ?]].
    split_and!; [done..|].
    unfold sorted_endpoints in Hex. rewrite Exists_exists in *.
    destruct Hex as (e & He & ?). exists e. split; [|done].
    by rewrite sort_by_perm in He.
Qed.

(** * Segment helpers *)

Lemma on_segment_true p1 p2 p :
  Light.on_segment p1 p2 p = true ↔
  (py_min p1.1 p2.1 ≤ p.1 ∧ p.1 ≤ py_max p1.1 p2.1) ∧
  (py_min p1.2 p2.2 ≤ p.2 ∧ p.2 ≤ py_max p1.2 p2.2).
Proof.
  unfold Light.on_segment. by rewrite andb_true_iff, !bool_decide_eq_true.
Qed.

(** A point [a + s (b - a)] with [0 ≤ s ≤ 1] is between [a] and [b]. *)
Lemma between_min_max (a b s : num) :
  0 ≤ s → s ≤ 1 →
  py_min a b ≤ a + s * (b - a) ∧ a + s * (b - a) ≤ py_max a b.
Proof.
  intros H0 H1. unfold py_min, py_max. repeat case_decide; qc2q; nra.
Qed.

Lemma on_segment_parametric p1 p2 s :
  0 ≤ s → s ≤ 1 →
  Light.on_segment p1 p2 (p1.1 + s * (p2.1 - p1.1), p1.2 + s * (p2.2 - p1.2)) = true.
Proof.
  intros H0 H1. apply on_segment_true. cbn [fst snd].
  split; by apply between_min_max.
Qed.

Lemma get_direction_parametric p1 p2 s :
  Light.get_direction p1 p2
    (p1.1 + s * (p2.1 - p1.1), p1.2 + s * (p2.2 - p1.2)) = 0.
Proof.
  destruct p1, p2. unfold Light.get_direction, Light.cross_product,
    Light.subtract. cbn [fst snd]. ring.
Qed.

Lemma get_intersection_cases p1 p2 p3 p4 :
  (Light.denominator p1 p2 p3 p4 = 0 ∧
   Light.get_intersection p1 p2 p3 p4 = Raise ZeroDivisionError) ∨
  (Light.denominator p1 p2 p3 p4 ≠ 0 ∧
   ∃ q, Light.get_intersection p1 p2 p3 p4 = Ok q).
Proof.
  destruct (decide (Light.denominator p1 p2 p3 p4 = 0)) as [Hd|Hd].
  - left. split; [done|]. unfold Light.get_intersection, Light.denominator in *.
    cbv zeta in *. by rewrite decide_True.
  - right. split; [done|].
    destruct (get_intersection_Ok _ _ _ _ Hd) as (s & _ & ->). eauto.
Qed.

(** X12.  [get_intersection] divides by zero exactly when the cross product
    of the two directions is zero; otherwise the point it returns is on the
    line through [p1], [p2] and on the line through [p3], [p4]. *)
Theorem get_intersection_on_both_lines (p1 p2 p3 p4 : point) :
  (Light.get_intersection p1 p2 p3 p4 = Raise ZeroDivisionError ↔
   Light.cross_product (Light.subtract p2 p1) (Light.subtract p4 p3) = 0) ∧
  (∀ q, Light.get_intersection p1 p2 p3 p4 = Ok q →
     Light.get_direction p1 p2 q = 0 ∧ Light.get_direction p3 p4 q = 0).
Proof.
  assert (Light.cross_product (Light.subtract p2 p1) (Light.subtract p4 p3)
          = Light.denominator p1 p2 p3 p4) as ->.
  { destruct p1, p2, p3, p4. unfold Light.cross_product, Light.subtract,
      Light.denominator. cbn [fst snd]. ring. }
  split.
  - destruct (get_intersection_cases p1 p2 p3 p4) as [[Hd ->]|(Hd & q & ->)];
      naive_solver.
  - intros q Hq.
    destruct (get_intersection_cases p1 p2 p3 p4) as [[Hd Hr]|(Hd & _)];
      [congruence|].
    destruct (get_intersection_Ok _ _ _ _ Hd) as (s & Hs & Hq').
    rewrite Hq in Hq'. injection Hq' as ->. split.
    + apply get_direction_parametric.
    + rewrite get_direction_affine. rewrite denominator_ray_directions in Hs.
      revert Hs. generalize (Light.get_direction p3 p4 p1)
        (Light.get_direction p3 p4 p2). intros d1 d2 Hs. qc2q. lra.
Qed.

Lemma get_intersection_swap p1 p2 p3 p4 q :
  Light.get_intersection p1 p2 p3 p4 = Ok q →
  Light.get_intersection p3 p4 p1 p2 = Ok q.
Proof.
  unfold Light.get_intersection. cbv zeta. case_decide as Hd; [done|].
  intros [= <-]. rewrite decide_False.
  - f_equal. destruct p1, p2, p3, p4. cbn [fst snd] in *.
    f_equal; field; (split; [done|]); intros Hz; apply Hd; clear Hd; qc2q; nra.
  - intros Hz. apply Hd. destruct p1, p2, p3, p4. cbn [fst snd] in *.
    clear Hd. qc2q. nra.
Qed.

Lemma lies_on_parametric p1 p2 s :
  0 ≤ s → s ≤ 1 →
  lies_on p1 p2 (p1.1 + s * (p2.1 - p1.1), p1.2 + s * (p2.2 - p1.2)).
Proof.
  intros H0 H1. split;
    [apply get_direction_parametric|by apply on_segment_parametric].
Qed.

Lemma crossing_point_lies_on p1 p2 p3 p4 q :
  (0 < Light.get_direction p3 p4 p1 ∧ Light.get_direction p3 p4 p2 < 0) ∨
  (Light.get_direction p3 p4 p1 < 0 ∧ 0 < Light.get_direction p3 p4 p2) →
  Light.get_intersection p1 p2 p3 p4 = Ok q →
  lies_on p1 p2 q.
Proof.
  intros Hopp Hq.
  destruct (get_intersection_cases p1 p2 p3 p4) as [[Hd Hr]|(Hd & _)];
    [congruence|].
  destruct (get_intersection_Ok _ _ _ _ Hd) as (s & Hs & Hq').
  rewrite Hq in Hq'. injection Hq' as ->.
  rewrite denominator_ray_directions in Hs.
  destruct (crossing_parameter _ _ _ Hopp Hs) as [H0 H1].
  apply lies_on_parametric; by apply Qclt_le_weak.
Qed.

(** The computed point of two properly crossing segments is on both. *)
Lemma segments_cross_lies_on p1 p2 p3 p4 q :
  Light.segments_cross (p1, p2) (p3, p4) = true →
  Light.get_intersection p1 p2 p3 p4 = Ok q →
  lies_on p1 p2 q ∧ lies_on p3 p4 q.
Proof.
  intros [H12 H34]%segments_cross_true Hq. split.
  - by eapply crossing_point_lies_on.
  - apply get_intersection_swap in Hq. by eapply crossing_point_lies_on.
Qed.

(** X13.  On exact numbers, two segments that cross properly have a
    nonzero divisor, and the point [get_intersection] computes for them is
    on both segments. *)
Theorem crossing_segments_meet (p1 p2 p3 p4 : point) :
  Light.segments_cross (p1, p2) (p3, p4) = true →
  ∃ q, Light.get_intersection p1 p2 p3 p4 = Ok q ∧
       lies_on p1 p2 q ∧ lies_on p3 p4 q.
Proof.
  intros Hx.
  destruct (get_intersection_cases p1 p2 p3 p4) as [[Hd _]|(_ & q & Hq)].
  - by apply segments_cross_denominator in Hx.
  - exists q. split; [done|]. by apply segments_cross_lies_on.
Qed.

Lemma lies_on_first p1 p2 : lies_on p1 p2 p1.
Proof.
  split.
  - destruct p1, p2. unfold Light.get_direction, Light.cross_product,
      Light.subtract. cbn [fst snd]. ring.
  - apply on_segment_true. unfold py_min, py_max.
    repeat case_decide; repeat split; qc2q; lra.
Qed.

Lemma lies_on_second p1 p2 : lies_on p1 p2 p2.
Proof.
  split.
  - destruct p1, p2. unfold Light.get_direction, Light.cross_product,
      Light.subtract. cbn [fst snd]. ring.
  - apply on_segment_true. unfold py_min, py_max.
    repeat case_decide; repeat split; qc2q; lra.
Qed.

(** X16.  [on_segment] is a bounding-box test: it does not depend on the
    order of the two ends, and it accepts the corner [(p1[0], p2[1])] of the
    box whether or not that point is on the line. *)
Theorem on_segment_bounding_box (p1 p2 p : point) :
  Light.on_segment p1 p2 p = Light.on_segment p2 p1 p ∧
  Light.on_segment p1 p2 (p1.1, p2.2) = true.
Proof.
  split.
  - apply eq_true_iff_eq. rewrite !on_segment_true.
    unfold py_min, py_max. repeat case_decide; split; intros [[? ?] [? ?]];
      repeat split; qc2q; lra.
  - apply on_segment_true. cbn [fst snd]. unfold py_min, py_max.
    repeat case_decide; repeat split; qc2q; lra.
Qed.

Lemma intersect_true p1 p2 p3 p4 :
  Light.intersect p1 p2 p3 p4 = true ↔
  Light.segments_cross (p1, p2) (p3, p4) = true ∨
  lies_on p3 p4 p1 ∨ lies_on p3 p4 p2 ∨ lies_on p1 p2 p3 ∨ lies_on p1 p2 p4.
Proof.
  unfold Light.intersect, lies_on, Light.segments_cross. cbv zeta.
  repeat (case_bool_decide); repeat (destruct (Light.on_segment _ _ _));
    cbn [andb]; naive_solver.
Qed.

(** X14.  [intersect] does not depend on the order of the two segments. *)
Theorem intersect_symmetric (p1 p2 p3 p4 : point) :
  Light.intersect p1 p2 p3 p4 = Light.intersect p3 p4 p1 p2.
Proof.
  apply eq_true_iff_eq. rewrite !intersect_true, !segments_cross_true. tauto.
Qed.

(** X15.  When [intersect] answers [True] the two segments have a point
    in common, and it answers [True] whenever an end of one segment is on
    the other. *)
Theorem intersect_common_point (p1 p2 p3 p4 : point) :
  (Light.intersect p1 p2 p3 p4 = true → ∃ q, lies_on p1 p2 q ∧ lies_on p3 p4 q) ∧
  (lies_on p3 p4 p1 ∨ lies_on p3 p4 p2 ∨ lies_on p1 p2 p3 ∨ lies_on p1 p2 p4 →
   Light.intersect p1 p2 p3 p4 = true).
Proof.
  split.
  - rewrite intersect_true. intros [Hx|[H|[H|[H|H]]]].
    + destruct (get_intersection_cases p1 p2 p3 p4) as [[Hd _]|(_ & q & Hq)].
      * by apply segments_cross_denominator in Hx.
      * exists q. by apply segments_cross_lies_on.
    + exists p1. split; [apply lies_on_first|done].
    + exists p2. split; [apply lies_on_second|done].
    + exists p3. split; [done|apply lies_on_first].
    + exists p4. split; [done|apply lies_on_second].
  - rewrite intersect_true. tauto.
Qed.

Lemma find_endpoints_last_wall_wins_witness :
  let walls := Light.walls (Sample.built Sample.square_light) in
  let e := Endpoint.Build 5 (Exact.pt 40 30) (Some 5) (Some 8) in
  e ∈ Light.find_endpoints 0 walls ∧
  Endpoint.begins e = Wall.id <$> last (begun_at (Endpoint.position e) walls).
Proof.
  intros walls e.
  assert (e ∈ Light.find_endpoints 0 walls) as He by by_compute.
  split; [exact He|].
  exact (proj1 (find_endpoints_last_wall_wins 0 walls e He)).
Defined.

Lemma find_walls_endpoint_positions_witness :
  let walls := Light.walls (Sample.built Sample.square_light) in
  let endpoints := Light.endpoints (Sample.built Sample.square_light) in
  @Light.find_walls Sample.G 0 0 [Sample.square] = Ok (walls, endpoints) ∧
  Exact.pt 50 50 ∈ Endpoint.position <$> endpoints.
Proof.
  intros walls endpoints.
  assert (@Light.find_walls Sample.G 0 0 [Sample.square]
          = Ok (walls, endpoints)) as Hfw by (vm_compute; reflexivity).
  split; [exact Hfw|].
  apply (proj2 (@find_walls_endpoint_positions Sample.G 0 0 [Sample.square]
    walls endpoints (Exact.pt 50 50) Hfw)).
  right. exists Sample.square. split; [left|].
  apply (bool_decide_unpack _). vm_compute. reflexivity.
Defined.

Lemma cast_rays_only_KeyError_witness :
  let L := Sample.built
    (@Light.init Sample.G 0 0 (Z2num 30) (Z2num 40) 0 [Sample.dot]
       (Z2num 1500)) in
  @Light.cast_rays Sample.G (Light.walls L) (@sorted_endpoints Sample.G L)
    Sample.origin (Z2num 1500) = Raise KeyError ∧
  KeyError = KeyError.
Proof.
  intros L.
  assert (@Light.cast_rays Sample.G (Light.walls L)
            (@sorted_endpoints Sample.G L) Sample.origin (Z2num 1500)
          = Raise KeyError) as Hcast by (vm_compute; reflexivity).
  split; [exact Hcast|].
  exact (proj1 (@cast_rays_only_KeyError Sample.G _ _ _ _ _ Hcast)).
Defined.

Lemma cast_rays_shape_witness :
  let L := Sample.built Sample.square_light in
  ∃ rays,
    @Light.cast_rays Sample.G (Light.walls L) (Light.endpoints L)
      Sample.origin (Z2num 1500) = Ok rays ∧
    (length rays ≤ 4 * length (Light.endpoints L))%nat.
Proof.
  intros L.
  destruct (@Light.cast_rays Sample.G (Light.walls L) (Light.endpoints L)
    Sample.origin (Z2num 1500)) as [rays|e] eqn:Hcast.
  - exists rays. split; [reflexivity|].
    exact (proj1 (@cast_rays_shape Sample.G _ _ _ _ rays Hcast)).
  - exfalso. revert Hcast. vm_compute. discriminate.
Defined.

Lemma cast_rays_empty_iff_witness :
  let L := Sample.built (Sample.empty_light 10) in
  @Light.cast_rays Sample.G (Light.walls L) (Light.endpoints L)
    Sample.origin (Z2num 10) = Ok [] ∧
  Forall (@out_of_range Sample.G Sample.origin (Z2num 10)) (Light.endpoints L).
Proof.
  intros L.
  assert (@Light.cast_rays Sample.G (Light.walls L) (Light.endpoints L)
    Sample.origin (Z2num 10) = Ok []) as Hcast by (vm_compute; reflexivity).
  split; [exact Hcast|].
  exact (proj1 (@cast_rays_empty_iff Sample.G _ _ _ _ [] Hcast) eq_refl).
Defined.

Lemma get_intersection_on_both_lines_witness :
  Light.get_intersection (Exact.pt 0 0) (Exact.pt 10 0) (Exact.pt 4 (-1))
    (Exact.pt 4 30) = Ok (Exact.pt 4 0) ∧
  Light.get_direction (Exact.pt 4 (-1)) (Exact.pt 4 30) (Exact.pt 4 0) = 0.
Proof.
  assert (Light.get_intersection (Exact.pt 0 0) (Exact.pt 10 0)
    (Exact.pt 4 (-1)) (Exact.pt 4 30) = Ok (Exact.pt 4 0)) as Hq by by_compute.
  split; [exact Hq|].
  exact (proj2 (proj2 (get_intersection_on_both_lines _ _ _ _) _ Hq)).
Defined.

Lemma crossing_segments_meet_witness :
  Light.segments_cross (Exact.pt 0 0, Exact.pt 10 0)
    (Exact.pt 4 (-1), Exact.pt 4 30) = true ∧
  ∃ q, Light.get_intersection (Exact.pt 0 0) (Exact.pt 10 0) (Exact.pt 4 (-1))
         (Exact.pt 4 30) = Ok q ∧
       lies_on (Exact.pt 0 0) (Exact.pt 10 0) q ∧
       lies_on (Exact.pt 4 (-1)) (Exact.pt 4 30) q.
Proof.
  assert (Light.segments_cross (Exact.pt 0 0, Exact.pt 10 0)
    (Exact.pt 4 (-1), Exact.pt 4 30) = true) as Hx by (vm_compute; reflexivity).
  split; [exact Hx|].
  exact (crossing_segments_meet _ _ _ _ Hx).
Defined.

Lemma intersect_common_point_witness :
  Light.intersect (Exact.pt 0 0) (Exact.pt 10 0) (Exact.pt 10 0) (Exact.pt 10 5)
    = true ∧
  ∃ q, lies_on (Exact.pt 0 0) (Exact.pt 10 0) q ∧
       lies_on (Exact.pt 10 0) (Exact.pt 10 5) q.
Proof.
  assert (Light.intersect (Exact.pt 0 0) (Exact.pt 10 0) (Exact.pt 10 0)
    (Exact.pt 10 5) = true) as Hi by (vm_compute; reflexivity).
  split; [exact Hi|].
  exact (proj1 (intersect_common_point _ _ _ _) Hi).
Defined.

Lemma update_light_idempotent_witness :
  ∃ L', @Light.update_light Sample.G 40 (Sample.built Sample.square_light)
          = Some (Ok L') ∧
        @Light.update_light Sample.G 40 L' = Some (Ok L').
Proof.
  destruct (@Light.update_light Sample.G 40 (Sample.built Sample.square_light))
    as [[L'|e]|] eqn:Hup; [|exfalso..].
  - exists L'. split; [reflexivity|].
    exact (proj1 (@update_light_idempotent Sample.G 40
      (Sample.built Sample.square_light) L' Hup)).
  - revert Hup. vm_compute. discriminate.
  - revert Hup. vm_compute. discriminate.
Defined.

Lemma update_light_rays_from_light_witness :
  ∃ L', @Light.update_light Sample.G 40 (Sample.built Sample.square_light)
          = Some (Ok L') ∧
        length (Light.light_polygon L') = length (Light.rays L').
Proof.
  destruct (@Light.update_light Sample.G 40 (Sample.built Sample.square_light))
    as [[L'|e]|] eqn:Hup; [|exfalso..].
  - exists L'. split; [reflexivity|].
    destruct (@update_light_rays_from_light Sample.G 40
      (Sample.built Sample.square_light) L' Hup) as (rays & _ & _ & Hlen & _).
    exact Hlen.
  - revert Hup. vm_compute. discriminate.
  - revert Hup. vm_compute. discriminate.
Defined.

Lemma update_light_rays_unobstructed_witness :
  ∃ L', @Light.update_light Sample.G 40 (Sample.built Sample.square_light)
          = Some (Ok L') ∧
        ∀ r w, r ∈ Light.rays L' →
          w ∈ Light.walls (Sample.built Sample.square_light) →
          ¬ @Light.collides Sample.G r w.
Proof.
  destruct (@Light.update_light Sample.G 40 (Sample.built Sample.square_light))
    as [[L'|e]|] eqn:Hup; [|exfalso..].
  - exists L'. split; [reflexivity|].
    exact (@update_light_rays_unobstructed Sample.G 40
      (Sample.built Sample.square_light) L' Hup).
  - revert Hup. vm_compute. discriminate.
  - revert Hup. vm_compute. discriminate.
Defined.

Lemma update_light_polygon_empty_iff_witness :
  ∃ L', @Light.update_light Sample.G 1 (Sample.built (Sample.empty_light 10))
          = Some (Ok L') ∧
        (Light.light_polygon L' = [] ↔
         Forall (@out_of_range Sample.G
                   (Light.x (Sample.built (Sample.empty_light 10)),
                    Light.y (Sample.built (Sample.empty_light 10)))
                   (Light.power (Sample.built (Sample.empty_light 10))))
           (Light.endpoints (Sample.built (Sample.empty_light 10)))).
Proof.
  destruct (@Light.update_light Sample.G 1
    (Sample.built (Sample.empty_light 10))) as [[L'|e]|] eqn:Hup; [|exfalso..].
  - exists L'. split; [reflexivity|].
    exact (@update_light_polygon_empty_iff Sample.G 1
      (Sample.built (Sample.empty_light 10)) L' Hup).
  - revert Hup. vm_compute. discriminate.
  - revert Hup. vm_compute. discriminate.
Defined.

Lemma update_light_exceptions_witness :
  let L := Sample.built
    (@Light.init Sample.G 0 0 (Z2num 30) (Z2num 40) 0 [Sample.dot]
       (Z2num 1500)) in
  @Light.update_light Sample.G 1 L = Some (Raise KeyError) ∧
  @Light.cast_rays Sample.G (Light.walls L) (@sorted_endpoints Sample.G L)
    (Light.x L, Light.y L) (Light.power L) = Raise KeyError.
Proof.
  intros L.
  assert (@Light.update_light Sample.G 1 L = Some (Raise KeyError)) as Hup
    by (vm_compute; reflexivity).
  split; [exact Hup|].
  destruct (@update_light_exceptions Sample.G 1 L KeyError Hup)
    as [(_ & Hcast & _)|(Hx & _)]; [exact Hcast|discriminate Hx].
Defined.

(** * The empty area *)
Section empty_area_more.
Context `{G : Geometry}.








End empty_area_more.





(** * The resolver in binary64 *)
Section binary64_resolver.
Import Binary64.
Variable crosses : point * point → point * point → bool.

(** Once every ray from position [i] on is the same 2-tuple from the
    origin, and clipping that ray gives its own target back, no amount of
    rounds ends the loop. *)
Lemma resolve_loop_fixed_point walls origin p w1 w2 :
  colliding_wall crosses walls (Ray2 origin p) = Some (w1, w2) →
  get_intersection origin p w1 w2 = Ok p →
  ∀ fuel rays i col,
    (i < length rays)%nat →
    (∀ j r, (i ≤ j)%nat → rays !! j = Some r → r = Ray2 origin p) →
    resolve_loop crosses fuel walls origin rays i col = None.
Proof.
  intros Hc Hp. induction fuel as [|fuel IH]; intros rays i col Hi Hall; [done|].
  cbn [resolve_loop]. destruct (rays !! i) as [r|] eqn:Hr.
  - rewrite (Hall i r (le_n _) Hr), Hc. cbn [ray_0 ray_1]. rewrite Hp.
    apply IH.
    + rewrite length_app. cbn [length]. lia.
    + intros j r' Hj Hr'. apply lookup_app_Some in Hr' as [Hr'|[_ Hr']].
      * apply (Hall j); [lia|done].
      * apply list_lookup_singleton_Some in Hr' as [_ <-]. done.
  - apply lookup_ge_None in Hr. lia.
Qed.

End binary64_resolver.

(** C5.  A ray and a wall whose exact determinant is zero never cross
    strictly, so such a wall is passed over.  But the divisor the code
    computes is rounded: whenever it is zero for the wall picked for the ray
    at position [i], the round raises [ZeroDivisionError]. *)
Theorem binary64_zero_divisor_raises
    (crosses : Binary64.point * Binary64.point →
               Binary64.point * Binary64.point → bool)
    (fuel : nat) (walls : list Binary64.wall) (origin : Binary64.point)
    (rays : list Binary64.ray) (i : nat) (col : list Binary64.ray)
    (r : Binary64.ray) (w1 w2 : Binary64.point) :
  (Light.denominator (Binary64.exact_point (Binary64.ray_0 r))
     (Binary64.exact_point (Binary64.ray_1 r))
     (Binary64.exact_point w1) (Binary64.exact_point w2) = 0 →
   Binary64.strict_crossing (Binary64.ray_0 r, Binary64.ray_1 r) (w1, w2)
     = false) ∧
  (rays !! i = Some r →
   Binary64.colliding_wall crosses walls r = Some (w1, w2) →
   PrimFloat.eqb
     (Binary64.divisor (Binary64.ray_0 r) (Binary64.ray_1 r) w1 w2) 0 = true →
   Binary64.resolve_loop crosses (S fuel) walls origin rays i col
     = Some (Raise ZeroDivisionError)).
Proof.
  split.
  - intros Hd. apply not_true_is_false. intros Hx.
    by apply segments_cross_denominator in Hx.
  - intros Hr Hc Hz. cbn [Binary64.resolve_loop]. rewrite Hr, Hc.
    unfold Binary64.get_intersection, Binary64.divisor in *. cbv zeta in *.
    by rewrite Hz.
Qed.

(** C10.  A ray clipped at a point that, once rounded, lies past the wall
    is replaced by a ray that crosses the same wall again; when clipping the
    replacement gives the same point back, the loop appends that ray for
    ever: it returns for no number of rounds. *)
Theorem binary64_resolve_loop_never_ends
    (crosses : Binary64.point * Binary64.point →
               Binary64.point * Binary64.point → bool)
    (walls : list Binary64.wall) (origin : Binary64.point)
    (rays : list Binary64.ray) (i : nat) (col : list Binary64.ray)
    (r : Binary64.ray) (w1 w2 v1 v2 p : Binary64.point) :
  rays !! i = Some r → length rays = S i →
  Binary64.colliding_wall crosses walls r = Some (w1, w2) →
  Binary64.get_intersection (Binary64.ray_0 r) (Binary64.ray_1 r) w1 w2
    = Ok p →
  Binary64.colliding_wall crosses walls (Binary64.Ray2 origin p)
    = Some (v1, v2) →
  Binary64.get_intersection origin p v1 v2 = Ok p →
  ∀ fuel, Binary64.resolve_loop crosses fuel walls origin rays i col = None.
Proof.
  intros Hr Hlen Hc Hp Hc' Hp' [|fuel]; [done|].
  cbn [Binary64.resolve_loop]. rewrite Hr, Hc, Hp.
  apply (resolve_loop_fixed_point crosses walls origin p v1 v2 Hc' Hp').
  - rewrite length_app. cbn [length]. lia.
  - intros j r' Hj Hr'. apply lookup_app_Some in Hr' as [Hr'|[_ Hr']].
    + apply lookup_lt_Some in Hr'. lia.
    + by apply list_lookup_singleton_Some in Hr' as [_ <-].
Qed.

Lemma binary64_zero_divisor_raises_witness :
  let r := Binary64.long_diagonal in
  let w := Binary64.near_diagonal in
  Binary64.strict_crossing (Binary64.ray_0 r, Binary64.ray_1 r)
    (Binary64.a w, Binary64.b w) = true ∧
  Light.denominator (Binary64.exact_point (Binary64.ray_0 r))
    (Binary64.exact_point (Binary64.ray_1 r))
    (Binary64.exact_point (Binary64.a w))
    (Binary64.exact_point (Binary64.b w)) = Z2num (-3) ∧
  ∀ fuel, Binary64.resolve_loop Binary64.strict_crossing (S fuel) [w]
            (0, 0)%float [r] 0 [] = Some (Raise ZeroDivisionError).
Proof.
  intros r w. split; [vm_compute; reflexivity|].
  split; [apply (bool_decide_unpack _); vm_compute; reflexivity|].
  intros fuel.
  apply (proj2 (binary64_zero_divisor_raises Binary64.strict_crossing fuel [w]
    (0, 0)%float [r] 0 [] r (Binary64.a w) (Binary64.b w))).
  - reflexivity.
  - vm_compute. reflexivity.
  - vm_compute. reflexivity.
Defined.

Lemma binary64_resolve_loop_never_ends_witness :
  let r := Binary64.ray_to_3 in
  let w := Binary64.steep_wall in
  Binary64.strict_crossing (Binary64.ray_0 r, Binary64.ray_1 r)
    (Binary64.a w, Binary64.b w) = true ∧
  ∀ fuel, Binary64.resolve_loop Binary64.strict_crossing fuel [w]
            (0, 0)%float [r] 0 [] = None.
Proof.
  intros r w. split; [vm_compute; reflexivity|].
  apply (binary64_resolve_loop_never_ends Binary64.strict_crossing [w]
    (0, 0)%float [r] 0 [] r (Binary64.a w) (Binary64.b w)
    (Binary64.a w) (Binary64.b w) (0x1.d555555555556p+0, 0)%float).
  - reflexivity.
  - reflexivity.
  - vm_compute. reflexivity.
  - vm_compute. reflexivity.
  - vm_compute. reflexivity.
  - vm_compute. reflexivity.
Defined.
